(** * Age-based image scanner (example/main.go): a shallow embedding

    The scanner receives a list of candidate images, indexes them by
    content digest, walks the containerd content store and partitions the
    images into the ones whose content is older than [maxAge]
    ("non-compliant") and the ones whose metadata could not be read
    ("failed").  The repository ships two variants of [main.go]; they are
    embedded in the modules [Plain] (first file) and [Logged] (second
    file).  The Go standard library pieces the program calls
    ([strings.TrimPrefix], [io/fs.WalkDir], [time.Since],
    [time.ParseDuration]) are embedded next to it, following their Go
    sources. *)

From Stdlib Require Import ZArith String Ascii List Bool Lia.
From Stdlib Require SpecFloat.
From stdpp Require Import base option list gmap strings.

Local Open Scope string_scope.
Local Open Scope Z_scope.

(** ** Data model *)

(** Modelled from the spec: the declaration of [unversioned.Image] lives in
    the eraser API package, outside this repository; the spec describes it
    as an identifier plus an ordered list of content digests. *)
Record Image := mkImage {
  ImageID : string;
  Digests : list string
}.

#[global] Instance Image_eq_dec : EqDecision Image.
Proof. solve_decision. Defined.

(** Go's [error] values that occur in the program: the two sentinels of
    [io/fs], the [*fs.PathError] produced by a failing file-system call, the
    errors built by [fmt.Errorf]/[errors.New], and the run-time panic of a
    nil dereference. *)
Inductive error :=
| SkipDir
| SkipAll
| PathError (op path errno : string)
| Errorf (msg : string)
| NilDereference.

#[global] Instance error_eq_dec : EqDecision error.
Proof. solve_decision. Defined.

(** [time.Duration] is a signed 64-bit count of nanoseconds. *)
Definition Duration := Z.

Definition Nanosecond : Duration := 1.
Definition Microsecond : Duration := 1000 * Nanosecond.
Definition Millisecond : Duration := 1000 * Microsecond.
Definition Second : Duration := 1000 * Millisecond.
Definition Minute : Duration := 60 * Second.
Definition Hour : Duration := 60 * Minute.

Definition minDuration : Duration := - 2 ^ 63.
Definition maxDuration : Duration := 2 ^ 63 - 1.

(** A [time.Time] instant, in nanoseconds since the epoch.  The range of
    [time.Time] is far wider than that of [Duration], hence [Z]. *)
Definition Time := Z.

(** [Time.Sub]: the difference saturates at the ends of [Duration]. *)
Definition Sub (t u : Time) : Duration :=
  let d := t - u in
  if d <? minDuration then minDuration
  else if maxDuration <? d then maxDuration
  else d.

(** What [os.FileInfo] carries for this program: the status-change time
    that [ctime.Created] extracts from it. *)
Record FileInfo := mkFileInfo { ctim : Time }.

#[global] Instance FileInfo_eq_dec : EqDecision FileInfo.
Proof. solve_decision. Defined.

Definition Created (info : FileInfo) : Time := ctim info.

(** The state of the file system under [containerdDataDir] as [fs.WalkDir]
    observes it.  A non-directory entry carries the outcome of [d.Info()]
    ([None]: the call fails); a directory carries the entries [ReadDir]
    returns (sorted by name by [ReadDir] itself) and the errno of [ReadDir]
    when it fails. *)
#[warnings="-register-all"]
Inductive Entry :=
| File (name : string) (info : option FileInfo)
| Dir (name : string) (entries : list Entry) (readErr : option string).

(** The outcome of [fs.Stat(fsys, ".")]. *)
Inductive FS :=
| Missing (errno : string)
| Root (d : Entry).

Definition Name (d : Entry) : string :=
  match d with
  | File n _ => n
  | Dir n _ _ => n
  end.

Definition IsDir (d : Entry) : bool :=
  match d with
  | File _ _ => false
  | Dir _ _ _ => true
  end.

(** Log records written through the [logr] logger. *)
Inductive LogValue :=
| LImage (img : Image)
| LImages (imgs : list Image)
| LString (s : string)
| LTime (t : Time)
| LDuration (d : Duration).

Inductive LogEntry :=
| LogError (err : error) (msg : string)
| LogInfo (msg : string) (kv : list (string * LogValue)).

(** The effects of a scan on the outside world: how many times the wall
    clock has been read, and the log written so far. *)
Record World := mkWorld {
  ticks : nat;
  logs : list LogEntry
}.

Definition log_Error (err : error) (msg : string) (w : World) : World :=
  mkWorld (ticks w) (logs w ++ [LogError err msg]).

Definition log_Info (msg : string) (kv : list (string * LogValue)) (w : World) : World :=
  mkWorld (ticks w) (logs w ++ [LogInfo msg kv]).

(** ** [strings] *)

Definition HasPrefix (s prefix : string) : bool := String.prefix prefix s.

(** [strings.TrimPrefix]: [s] without the leading [prefix], or [s] itself
    when it does not start with [prefix]. *)
Definition TrimPrefix (s prefix : string) : string :=
  if HasPrefix s prefix
  then String.substring (String.length prefix)
                        (String.length s - String.length prefix) s
  else s.

(** ** [io/fs.WalkDir] *)

Definition WalkDirFunc (S : Type) : Type :=
  string -> option Entry -> option error -> S -> S * option error.

(** [path.Join] on a clean directory path and an entry name. *)
Definition path_Join (dir name : string) : string :=
  if String.eqb dir "." then name else dir +:+ "/" +:+ name.

Definition isSkipDir (e : error) : bool := bool_decide (e = SkipDir).
Definition isSkipAll (e : error) : bool := bool_decide (e = SkipAll).

(** The [for _, d1 := range dirs] loop of [walkDir]. *)
Definition walkEntries {S : Type}
    (walk1 : string -> Entry -> S -> S * option error) (dir : string) :
    list Entry -> S -> S * option error :=
  fix loop (dirs : list Entry) (s : S) : S * option error :=
    match dirs with
    | [] => (s, None)
    | d1 :: rest =>
        match walk1 (path_Join dir (Name d1)) d1 s with
        | (s', Some err) =>
            if isSkipDir err then (s', None) else (s', Some err)
        | (s', None) => loop rest s'
        end
    end.

Fixpoint walkDir {S : Type} (fn : WalkDirFunc S) (name : string) (d : Entry)
    (s : S) : S * option error :=
  match fn name (Some d) None s with
  | (s1, Some err) =>
      if isSkipDir err && IsDir d then (s1, None) else (s1, Some err)
  | (s1, None) =>
      match d with
      | File _ _ => (s1, None)
      | Dir _ dirs readErr =>
          let second :=
            match readErr with
            | Some errno => fn name (Some d) (Some (PathError "readdir" name errno)) s1
            | None => (s1, None)
            end in
          match second with
          | (s2, Some err) =>
              if isSkipDir err && IsDir d then (s2, None) else (s2, Some err)
          | (s2, None) => walkEntries (walkDir fn) name dirs s2
          end
      end
  end.

Definition WalkDir {S : Type} (fsys : FS) (root : string) (fn : WalkDirFunc S)
    (s : S) : S * option error :=
  let '(s', err) :=
    match fsys with
    | Missing errno => fn root None (Some (PathError "stat" root errno)) s
    | Root d => walkDir fn root d s
    end in
  match err with
  | Some e => if isSkipDir e || isSkipAll e then (s', None) else (s', Some e)
  | None => (s', None)
  end.

(** ** [time] *)

(** [time.Now]: the wall clock is an oracle, [clock k] being the instant
    returned by the [k]-th reading of a run. *)
Definition time_Now (clock : nat -> Time) (w : World) : Time * World :=
  (clock (ticks w), mkWorld (S (ticks w)) (logs w)).

(** [time.Since(t)] is [time.Now().Sub(t)]. *)
Definition time_Since (clock : nat -> Time) (t : Time) (w : World) : Duration * World :=
  let '(now, w') := time_Now clock w in (Sub now t, w').

(** ** [time.ParseDuration] *)

Module ParseDur.
Import SpecFloat.

Definition byte (c : ascii) : Z := Z.of_N (N_of_ascii c).
Definition isDigit (c : ascii) : bool := (48 <=? byte c) && (byte c <=? 57).
Definition digit (c : ascii) : Z := byte c - 48.

(** [uint64] arithmetic wraps around. *)
Definition u64 (x : Z) : Z := x mod 2 ^ 64.

(** [float64] values and the operations [ParseDuration] performs on them. *)
Definition float64 := spec_float.
Definition f64_of_Z (x : Z) : float64 := binary_normalize 53 1024 x 0 false.
Definition f64_mul : float64 -> float64 -> float64 := SFmul 53 1024.
Definition f64_div : float64 -> float64 -> float64 := SFdiv 53 1024.

(** The conversion [uint64(x)] of a non-negative finite [float64]
    truncates toward zero. *)
Definition u64_of_f64 (x : float64) : Z :=
  match x with
  | S754_finite false m e =>
      if 0 <=? e then Z.pos m * 2 ^ e else Z.pos m / 2 ^ (- e)
  | _ => 0
  end.

(** [leadingInt]: consumes the leading digits; [None] on overflow. *)
Fixpoint leadingInt_from (x : Z) (s : string) : option (Z * string) :=
  match s with
  | String c rest =>
      if isDigit c then
        if 2 ^ 63 / 10 <? x then None
        else
          let x := u64 (x * 10 + byte c - 48) in
          if 2 ^ 63 <? x then None else leadingInt_from x rest
      else Some (x, s)
  | EmptyString => Some (x, s)
  end.

Definition leadingInt (s : string) : option (Z * string) := leadingInt_from 0 s.

(** [leadingFraction]: consumes the leading digits, ignoring the digits
    past the precision of a [uint64]. *)
Fixpoint leadingFraction_from (x : Z) (scale : float64) (overflow : bool)
    (s : string) : Z * float64 * string :=
  match s with
  | String c rest =>
      if isDigit c then
        if overflow then leadingFraction_from x scale overflow rest
        else if (2 ^ 63 - 1) / 10 <? x then leadingFraction_from x scale true rest
        else
          let y := u64 (x * 10 + byte c - 48) in
          if 2 ^ 63 <? y then leadingFraction_from x scale true rest
          else leadingFraction_from y (f64_mul scale (f64_of_Z 10)) false rest
      else (x, scale, s)
  | EmptyString => (x, scale, s)
  end.

Definition leadingFraction (s : string) : Z * float64 * string :=
  leadingFraction_from 0 (f64_of_Z 1) false s.

(** The unit of a component: the bytes up to the next ['.'] or digit. *)
Fixpoint splitUnit (s : string) : string * string :=
  match s with
  | String c rest =>
      if Ascii.eqb c "."%char || isDigit c then (EmptyString, s)
      else let '(u, r) := splitUnit rest in (String c u, r)
  | EmptyString => (EmptyString, s)
  end.

(** The UTF-8 encodings of U+00B5 and U+03BC. *)
Definition micro_sign : string :=
  String (ascii_of_nat 194) (String (ascii_of_nat 181) EmptyString).
Definition greek_mu : string :=
  String (ascii_of_nat 206) (String (ascii_of_nat 188) EmptyString).

Definition unitMap (u : string) : option Z :=
  if String.eqb u "ns" then Some Nanosecond
  else if String.eqb u "us" then Some Microsecond
  else if String.eqb u (micro_sign +:+ "s") then Some Microsecond
  else if String.eqb u (greek_mu +:+ "s") then Some Microsecond
  else if String.eqb u "ms" then Some Millisecond
  else if String.eqb u "s" then Some Second
  else if String.eqb u "m" then Some Minute
  else if String.eqb u "h" then Some Hour
  else None.

(** [quote], for strings that need no escaping. *)
Definition quote (s : string) : string :=
  String (ascii_of_nat 34) (s +:+ String (ascii_of_nat 34) EmptyString).

Definition invalid (orig : string) : error :=
  Errorf ("time: invalid duration " +:+ quote orig).

(** One turn of the loop over the components: parses digits, an
    optional fraction and a unit, and adds their value to [d]. *)
Definition component (orig s : string) (d : Z) : (Z * string) + error :=
  match s with
  | EmptyString => inr (invalid orig)
  | String c0 _ =>
      if negb (Ascii.eqb c0 "."%char || isDigit c0) then inr (invalid orig)
      else
        match leadingInt s with
        | None => inr (invalid orig)
        | Some (v, s1) =>
            let pre := negb (String.length s =? String.length s1)%nat in
            let '(f, scale, s2, post) :=
              match s1 with
              | String "."%char s1' =>
                  let '(f, scale, s2) := leadingFraction s1' in
                  (f, scale, s2, negb (String.length s1' =? String.length s2)%nat)
              | _ => (0, f64_of_Z 1, s1, false)
              end in
            if negb pre && negb post then inr (invalid orig)
            else
              let '(u, s3) := splitUnit s2 in
              if (String.length u =? 0)%nat
              then inr (Errorf ("time: missing unit in duration " +:+ quote orig))
              else
                match unitMap u with
                | None =>
                    inr (Errorf ("time: unknown unit " +:+ quote u +:+ " in duration " +:+ quote orig))
                | Some unit =>
                    if 2 ^ 63 / unit <? v then inr (invalid orig)
                    else
                      let v := u64 (v * unit) in
                      let v :=
                        if 0 <? f
                        then u64 (v + u64_of_f64
                               (f64_mul (f64_of_Z f) (f64_div (f64_of_Z unit) scale)))
                        else v in
                      if (0 <? f) && (2 ^ 63 <? v) then inr (invalid orig)
                      else
                        let d := u64 (d + v) in
                        if 2 ^ 63 <? d then inr (invalid orig) else inl (d, s3)
                end
        end
  end.

(** The loop over the components; every turn consumes at least one byte, so
    [String.length s] turns are enough. *)
Fixpoint components (fuel : nat) (orig s : string) (d : Z) : Z + error :=
  match s with
  | EmptyString => inl d
  | _ =>
      match fuel with
      | O => inr (invalid orig)
      | S fuel =>
          match component orig s d with
          | inr e => inr e
          | inl (d, s) => components fuel orig s d
          end
      end
  end.

Definition ParseDuration (s : string) : Duration * option error :=
  let orig := s in
  let '(neg, s) :=
    match s with
    | String "-"%char rest => (true, rest)
    | String "+"%char rest => (false, rest)
    | _ => (false, s)
    end in
  if String.eqb s "0" then (0, None)
  else if String.eqb s EmptyString then (0, Some (invalid orig))
  else
    match components (String.length s) orig s 0 with
    | inr e => (0, Some e)
    | inl d =>
        if neg then (- d, None)
        else if 2 ^ 63 - 1 <? d then (0, Some (invalid orig))
        else (d, None)
    end.

End ParseDur.

Definition ParseDuration := ParseDur.ParseDuration.

(** ** Configuration *)

Record Config := mkConfig {
  (** MaxAge is the oldest an image may be without being removed *)
  MaxAge : string
}.

(** How a run of [main] can end before the scan starts. *)
Inductive Outcome (A : Type) :=
| Returned (a : A)
| Exited (code : Z)
| Panicked (e : error).
Arguments Returned {A} a.
Arguments Exited {A} code.
Arguments Panicked {A} e.

Definition logIfError (err : option error) (msg : string) (w : World) : World :=
  match err with
  | Some e => log_Error e msg w
  | None => w
  end.

Definition defaultConfigPath : string := "/config/controller_manager_config.yaml".

(** The initial value of the package-level variable [maxAge]. *)
Definition initialMaxAge : Duration := 7 * 24 * Hour.

(** [loadConfig] and [main] speak to three collaborators outside the
    repository: [os.ReadFile]; [yaml.Unmarshal] into an
    [unversioned.EraserConfig], observed through the
    [Components.Scanner.Config] pointer it leaves behind ([None]: nil); and
    [yaml.Unmarshal] into a [Config] that already holds its defaults. *)

(** ** The image provider

    [main] talks to the image provider of the eraser template through
    three calls; a run is observed through the calls it makes, in order,
    the way it ends ([Returned tt]: [main] returns, the process exits with
    status 0) and the world it leaves. *)
Inductive ProviderCall :=
| CallReceiveImages
| CallSendImages (nonCompliant failedImages : list Image)
| CallFinish.

#[global] Instance ProviderCall_eq_dec : EqDecision ProviderCall.
Proof. solve_decision. Defined.

Record Run := mkRun {
  ending : Outcome unit;
  calls : list ProviderCall;
  final : World
}.

(** ** The scanner *)

Definition containerdDataDir : string :=
  "/var/lib/containerd/io.containerd.content.v1.content".

(** The variables the walk callback captures and updates, together with the
    outside world. *)
Record ScanState := mkScanState {
  nonCompliant : list Image;
  failedImages : list Image;
  world : World
}.

Definition appendFailed (img : Image) (st : ScanState) : ScanState :=
  mkScanState (nonCompliant st) (failedImages st ++ [img]) (world st).

Definition appendNonCompliant (img : Image) (st : ScanState) : ScanState :=
  mkScanState (nonCompliant st ++ [img]) (failedImages st) (world st).

Definition setWorld (w : World) (st : ScanState) : ScanState :=
  mkScanState (nonCompliant st) (failedImages st) w.

(** First variant of [example/main.go]. *)
Module Plain.

(** The two nested loops that fill the [digests] map of [scan]. *)
Definition digests (allImages : list Image) : gmap string Image :=
  foldl (fun m img =>
           foldl (fun m dgst => <[TrimPrefix dgst "sha256:" := img]> m)
                 m (Digests img))
        ∅ allImages.

Section Scan.
(** The wall clock, the package-level [maxAge] and the state of the
    content store [os.DirFS(containerdDataDir)]. *)
Variable clock : nat -> Time.
Variable maxAge : Duration.
Variable ctrFs : FS.

(** The function literal passed to [fs.WalkDir]. *)
Definition walkFn (digests : gmap string Image) : WalkDirFunc ScanState :=
  fun path d err st =>
    match err with
    | Some e => (st, Some e)
    | None =>
        match d with
        | None => (st, Some NilDereference)
        | Some (Dir _ _ _) => (st, None)
        | Some (File name info) =>
            match digests !! name with
            | None => (st, None)
            | Some img =>
                match info with
                | None => (appendFailed img st, None)
                | Some info =>
                    let created := Created info in
                    let '(age, w) := time_Since clock created (world st) in
                    let st := setWorld w st in
                    if maxAge <? age
                    then (appendNonCompliant img st, None)
                    else (st, None)
                end
            end
        end
    end.

Definition scan (allImages : list Image) (w : World) :
    (list Image * list Image) * World :=
  let digests := digests allImages in
  match WalkDir ctrFs "." (walkFn digests) (mkScanState [] [] w) with
  | (st, Some err) =>
      (([], allImages),
       log_Error (Errorf "directory scan failed")
                 "all images considered failed" (world st))
  | (st, None) => ((nonCompliant st, failedImages st), world st)
  end.
End Scan.

Section Configuration.
Variable ReadFile : string -> string + error.
Variable unmarshalEraserConfig : string -> option string * option error.
Variable unmarshalConfig : string -> Config -> Config * option error.

Definition loadConfig (filename : string) (w : World) :
    (Config * option error) * World :=
  let cfg := mkConfig "7d" in
  match ReadFile filename with
  | inr err => ((cfg, Some err), log_Error err "unable to read eraser config" w)
  | inl b =>
      let '(scanCfgYaml, err) := unmarshalEraserConfig b in
      let w := logIfError err "unable to unmarshal eraser config" w in
      let scanCfgBytes :=
        match scanCfgYaml with
        | Some y => y
        | None => EmptyString
        end in
      let '(cfg, err) := unmarshalConfig scanCfgBytes cfg in
      match err with
      | Some e => ((cfg, Some e), log_Error e "unable to unmarshal scanner config" w)
      | None => ((cfg, None), w)
      end
  end.

(** The block guarded by [c.MaxAge] being set in [main]: the two-value assignment
    stores whatever [time.ParseDuration] returns into [maxAge]. *)
Definition applyMaxAge (c : Config) (maxAge : Duration) (w : World) :
    Duration * World :=
  if negb (String.eqb (MaxAge c) EmptyString) then
    let '(maxAge, err) := ParseDuration (MaxAge c) in
    (maxAge, logIfError err "unable to parse duration" w)
  else (maxAge, w).

(** [main] up to the creation of the image provider: the value of
    [maxAge] the scan will run with. *)
Definition main_maxAge (config : string) (w : World) : Duration * World :=
  let config :=
    if String.eqb config EmptyString then defaultConfigPath else config in
  let '((c, err), w) := loadConfig config w in
  let w := logIfError err "unable to read configuration file" w in
  applyMaxAge c initialMaxAge w.
End Configuration.

Section Main.
(** The outside of a run: the clock, the content store, the configuration
    file and its decoders, and the answers of the image provider. *)
Variable clock : nat -> Time.
Variable ctrFs : FS.
Variable ReadFile : string -> string + error.
Variable unmarshalEraserConfig : string -> option string * option error.
Variable unmarshalConfig : string -> Config -> Config * option error.
Variable ReceiveImages : list Image + error.
Variable SendImages : list Image -> list Image -> option error.
Variable Finish : option error.

Definition main (config : string) (w : World) : Run :=
  let '(maxAge, w) :=
    main_maxAge ReadFile unmarshalEraserConfig unmarshalConfig config w in
  match ReceiveImages with
  | inr err =>
      mkRun (Returned tt) [CallReceiveImages]
        (log_Error err "unable to retrieve list of images from collector container" w)
  | inl allImages =>
      let '((nonCompliant, failedImages), w) := scan clock maxAge ctrFs allImages w in
      let sent := [CallReceiveImages; CallSendImages nonCompliant failedImages] in
      match SendImages nonCompliant failedImages with
      | Some err =>
          mkRun (Returned tt) sent
            (log_Error err "unable to send non-compliant images to eraser container" w)
      | None =>
          match Finish with
          | Some err =>
              mkRun (Returned tt) (sent ++ [CallFinish])
                (log_Error err "unable to complete scanner" w)
          | None => mkRun (Returned tt) (sent ++ [CallFinish]) w
          end
      end
  end.
End Main.

End Plain.

(** Second variant of [example/main.go]. *)
Module Logged.

Definition digests (allImages : list Image) : gmap string Image :=
  foldl (fun m img =>
           foldl (fun m dgst => <[TrimPrefix dgst "sha256:" := img]> m)
                 m (Digests img))
        ∅ allImages.

Section Scan.
Variable clock : nat -> Time.
Variable maxAge : Duration.
Variable ctrFs : FS.

Definition walkFn (digests : gmap string Image) : WalkDirFunc ScanState :=
  fun path d err st =>
    match err with
    | Some e => (st, Some e)
    | None =>
        match d with
        | None => (st, Some NilDereference)
        | Some (Dir _ _ _) => (st, None)
        | Some (File name info) =>
            match digests !! name with
            | None => (st, None)
            | Some img =>
                match info with
                | None => (appendFailed img st, None)
                | Some info =>
                    let created := Created info in
                    let '(logged, w) := time_Since clock created (world st) in
                    let w := log_Info "image scanned"
                               [("image", LImage img);
                                ("created_at", LTime created);
                                ("image age", LDuration logged)] w in
                    let '(age, w) := time_Since clock created w in
                    let st := setWorld w st in
                    if maxAge <? age
                    then (appendNonCompliant img st, None)
                    else (st, None)
                end
            end
        end
    end.

Definition scan (allImages : list Image) (w : World) :
    (list Image * list Image) * World :=
  let digests := digests allImages in
  match WalkDir ctrFs "." (walkFn digests) (mkScanState [] [] w) with
  | (st, Some err) =>
      (([], allImages),
       log_Error err "all images considered failed" (world st))
  | (st, None) =>
      ((nonCompliant st, failedImages st),
       log_Info "images"
         [("nonCompliant", LImages (nonCompliant st));
          ("failed", LImages (failedImages st))] (world st))
  end.
End Scan.

Section Configuration.
Variable ReadFile : string -> string + error.
Variable unmarshalEraserConfig : string -> option string * option error.
Variable unmarshalConfig : string -> Config -> Config * option error.
(** [logger.Configure()] *)
Variable logger_Configure : option error.

Definition loadConfig (filename : string) (w : World) :
    Outcome (Config * option error) * World :=
  let cfg := mkConfig "168h" in
  match ReadFile filename with
  | inr err =>
      (Returned (cfg, Some err), log_Error err "unable to read eraser config" w)
  | inl b =>
      let w := log_Info "eraserConfig" [("config", LString b)] w in
      let '(scanCfgYaml, err) := unmarshalEraserConfig b in
      let w := logIfError err "unable to unmarshal eraser config" w in
      match scanCfgYaml with
      | None => (Panicked NilDereference, w)
      | Some y =>
          let w := log_Info "scanner config yaml string" [("config", LString y)] w in
          let scanCfgBytes := y in
          let w := log_Info "scanner config" [("config", LString scanCfgBytes)] w in
          let '(cfg, err) := unmarshalConfig scanCfgBytes cfg in
          match err with
          | Some e =>
              (Returned (cfg, Some e),
               log_Error e "unable to unmarshal scanner config" w)
          | None => (Returned (cfg, None), w)
          end
      end
  end.

Definition main_maxAge (config : string) (w : World) : Outcome Duration * World :=
  match logger_Configure with
  | Some _ => (Exited 1, w)
  | None =>
      let config :=
        if String.eqb config EmptyString then defaultConfigPath else config in
      match loadConfig config w with
      | (Panicked e, w) => (Panicked e, w)
      | (Exited code, w) => (Exited code, w)
      | (Returned (c, Some err), w) =>
          (Exited 1, log_Error err "unable to read configuration file" w)
      | (Returned (c, None), w) =>
          if negb (String.eqb (MaxAge c) EmptyString) then
            match ParseDuration (MaxAge c) with
            | (_, Some err) => (Exited 1, log_Error err "unable to parse duration" w)
            | (maxAge, None) => (Returned maxAge, w)
            end
          else (Returned initialMaxAge, w)
      end
  end.
End Configuration.

Section Main.
Variable clock : nat -> Time.
Variable ctrFs : FS.
Variable ReadFile : string -> string + error.
Variable unmarshalEraserConfig : string -> option string * option error.
Variable unmarshalConfig : string -> Config -> Config * option error.
Variable logger_Configure : option error.
Variable ReceiveImages : list Image + error.
Variable SendImages : list Image -> list Image -> option error.
Variable Finish : option error.

Definition main (config : string) (w : World) : Run :=
  match main_maxAge ReadFile unmarshalEraserConfig unmarshalConfig
                    logger_Configure config w with
  | (Exited code, w) => mkRun (Exited code) [] w
  | (Panicked e, w) => mkRun (Panicked e) [] w
  | (Returned maxAge, w) =>
      match ReceiveImages with
      | inr err =>
          mkRun (Exited 1) [CallReceiveImages]
            (log_Error err "unable to retrieve list of images from collector container" w)
      | inl allImages =>
          let '((nonCompliant, failedImages), w) :=
            scan clock maxAge ctrFs allImages w in
          let sent := [CallReceiveImages; CallSendImages nonCompliant failedImages] in
          match SendImages nonCompliant failedImages with
          | Some err =>
              mkRun (Exited 1) sent
                (log_Error err "unable to send non-compliant images to eraser container" w)
          | None =>
              match Finish with
              | Some err =>
                  mkRun (Exited 1) (sent ++ [CallFinish])
                    (log_Error err "unable to complete scanner" w)
              | None => mkRun (Returned tt) (sent ++ [CallFinish]) w
              end
          end
      end
  end.
End Main.

End Logged.


(** ** Vocabulary of the specification *)

(** The non-directory entries of a tree, in the order [walkDir] reaches
    them, each with the outcome of its [Info()] call. *)
Fixpoint files (d : Entry) : list (string * option FileInfo) :=
  match d with
  | File n info => [(n, info)]
  | Dir _ dirs _ => flat_map files dirs
  end.

Definition fsFiles (fsys : FS) : list (string * option FileInfo) :=
  match fsys with
  | Missing _ => []
  | Root d => files d
  end.

(** Every directory of the tree can be listed. *)
Fixpoint readable (d : Entry) : bool :=
  match d with
  | File _ _ => true
  | Dir _ dirs readErr => bool_decide (readErr = None) && forallb readable dirs
  end.

(** The root exists and every directory below it can be listed. *)
Definition walkable (fsys : FS) : bool :=
  match fsys with
  | Missing _ => false
  | Root d => readable d
  end.

(** [inTree e d]: [e] is [d] or one of the entries below it. *)
Inductive inTree (e : Entry) : Entry -> Prop :=
| inTree_here : inTree e e
| inTree_below n dirs readErr d :
    d ∈ dirs -> inTree e d -> inTree e (Dir n dirs readErr).

(** The keys under which an image is entered in the digest index. *)
Definition bareDigests (img : Image) : list string :=
  (fun dgst => TrimPrefix dgst "sha256:") <$> Digests img.

(** The input images that are in neither list of a scan result. *)
Definition untouched (allImages : list Image) (res : list Image * list Image) :
    list Image :=
  filter (fun img => (img ∉ res.1) ∧ (img ∉ res.2)) allImages.

(** What a walk with callback [fn] comes to on a tree, [visit] being what
    the callback does to the state on a file. *)
Definition walkOutcome {S : Type} (fn : WalkDirFunc S)
    (visit : S -> string * option FileInfo -> S) (d : Entry) : Prop :=
  forall p s,
    (readable d = true -> walkDir fn p d s = (foldl visit s (files d), None)) /\
    (readable d = false ->
       exists s' op pth errno, walkDir fn p d s = (s', Some (PathError op pth errno))).

(** The effect of one call of the callback on a file, for each variant. *)
Definition visitPlain (clock : nat -> Time) (maxAge : Duration)
    (index : gmap string Image) (st : ScanState) (f : string * option FileInfo) :
    ScanState :=
  (Plain.walkFn clock maxAge index "." (Some (File f.1 f.2)) None st).1.

Definition visitLogged (clock : nat -> Time) (maxAge : Duration)
    (index : gmap string Image) (st : ScanState) (f : string * option FileInfo) :
    ScanState :=
  (Logged.walkFn clock maxAge index "." (Some (File f.1 f.2)) None st).1.

(** The world after one more reading of the clock. *)
Definition tick (w : World) : World := mkWorld (S (ticks w)) (logs w).

(** The store without the files whose metadata cannot be read (the root
    itself stays). *)
Definition infoFails (e : Entry) : bool :=
  match e with
  | File _ None => true
  | _ => false
  end.

Fixpoint withoutFailing (d : Entry) : Entry :=
  match d with
  | File _ _ => d
  | Dir n dirs readErr =>
      Dir n (flat_map (fun e => if infoFails e then [] else [withoutFailing e]) dirs)
          readErr
  end.

Definition fsWithoutFailing (fsys : FS) : FS :=
  match fsys with
  | Missing errno => Missing errno
  | Root d => Root (withoutFailing d)
  end.

(** ** Vocabulary of the further properties *)

(** The files the index knows, and among them the ones whose metadata can
    be read: the files for which the callback reads the clock. *)
Definition matched (index : gmap string Image) (f : string * option FileInfo) : Prop :=
  is_Some (index !! f.1).

Definition inspected (index : gmap string Image) (f : string * option FileInfo) : Prop :=
  is_Some (index !! f.1) /\ is_Some f.2.

#[global] Instance matched_dec index f : Decision (matched index f).
Proof. unfold matched. apply _. Defined.

#[global] Instance inspected_dec index f : Decision (inspected index f).
Proof. unfold inspected. apply _. Defined.

(** The image a file puts on the non-compliant list when the clock reads
    [now], and the image a file puts on the failed list. *)
Definition flagged (now : Time) (maxAge : Duration) (index : gmap string Image)
    (f : string * option FileInfo) : option Image :=
  match f.2 with
  | Some info => if maxAge <? Sub now (Created info) then index !! f.1 else None
  | None => None
  end.

Definition unreadableOwner (index : gmap string Image)
    (f : string * option FileInfo) : option Image :=
  match f.2 with
  | Some _ => None
  | None => index !! f.1
  end.

(** ** Sample inputs

    The store of the specification's example: [d1] was created ten days
    ago and [d2] an hour ago, the clock stands at [sampleNow] and the
    threshold is one week. *)
Definition day : Duration := 24 * Hour.
Definition week : Duration := 7 * day.
Definition sampleNow : Time := 100 * day.
Definition sampleClock : nat -> Time := fun _ => sampleNow.
Definition oldInfo : FileInfo := mkFileInfo (sampleNow - 10 * day).
Definition freshInfo : FileInfo := mkFileInfo (sampleNow - Hour).
Definition world0 : World := mkWorld 0 [].

Definition imageA : Image := mkImage "a" ["sha256:d1"].
Definition imageB : Image := mkImage "b" ["sha256:d2"].
(** An image with two digests, and one that shares a digest with [imageA]. *)
Definition imageAB : Image := mkImage "ab" ["sha256:d1"; "sha256:d2"].
Definition imageC : Image := mkImage "c" ["sha256:d1"].

Definition blobs (fs : list Entry) : FS :=
  Root (Dir "." [Dir "blobs" [Dir "sha256" fs None] None] None).

Definition storeExample : FS :=
  blobs [File "d1" (Some oldInfo); File "d2" (Some freshInfo)].

(** The metadata of [d2] cannot be read. *)
Definition storeNoInfo : FS :=
  blobs [File "d1" (Some oldInfo); File "d2" None].

(** The root directory does not exist. *)
Definition storeMissing : FS := Missing "no such file or directory".

(** A directory that comes after [d1] and [d2] cannot be listed. *)
Definition storeBroken : FS :=
  blobs [File "d1" (Some oldInfo); File "d2" (Some freshInfo);
         Dir "ingest" [] (Some "permission denied")].

(** [d2] is exactly one week old. *)
Definition weekOldInfo : FileInfo := mkFileInfo (sampleNow - week).
Definition storeBoundary : FS :=
  blobs [File "d1" (Some oldInfo); File "d2" (Some weekOldInfo)].

(** The files of [storeExample] directly under the root. *)
Definition storeFlat : FS :=
  Root (Dir "." [File "d1" (Some oldInfo); File "d2" (Some freshInfo)] None).

(** An image without digests. *)
Definition imageEmpty : Image := mkImage "empty" [].

(** Collaborators for sample runs of [main]: a configuration file whose
    scanner block sets a one-day threshold, one that cannot be read, and
    an image provider that hands out [imageA] and [imageB]. *)
Definition readOK : string -> string + error := fun _ => inl "components: {}".
Definition readFails : string -> string + error :=
  fun name => inr (PathError "open" name "no such file or directory").
Definition outerWithBlock : string -> option string * option error :=
  fun _ => (Some "maxAge: 24h", None).
Definition outerWithoutBlock : string -> option string * option error :=
  fun _ => (None, None).
Definition blockOneDay : string -> Config -> Config * option error :=
  fun _ _ => (mkConfig "24h", None).
Definition receiveAB : list Image + error := inl [imageA; imageB].
Definition sendOK : list Image -> list Image -> option error := fun _ _ => None.
Definition sendFails : list Image -> list Image -> option error :=
  fun _ _ => Some (Errorf "write: broken pipe").

(** A clock that moves between two readings: [d1] is exactly one week old
    at the first reading and one second older at every later one. *)
Definition movingClock : nat -> Time :=
  fun k => match k with
           | O => ctim oldInfo + week
           | S _ => ctim oldInfo + week + Second
           end.

(** * Properties *)

(** ** Induction over a directory tree *)

Section EntryInduction.
Variable P : Entry -> Prop.
Hypothesis P_File : forall n info, P (File n info).
Hypothesis P_Dir : forall n dirs readErr, Forall P dirs -> P (Dir n dirs readErr).

Fixpoint Entry_tree_ind (d : Entry) : P d :=
  match d with
  | File n info => P_File n info
  | Dir n dirs readErr =>
      P_Dir n dirs readErr
        ((fix all (l : list Entry) : Forall P l :=
            match l with
            | [] => List.Forall_nil P
            | d1 :: l' => List.Forall_cons P d1 l' (Entry_tree_ind d1) (all l')
            end) dirs)
  end.
End EntryInduction.

(** ** What [WalkDir] does with a callback of the scanner's shape

    A callback that hands back every error it is given, does nothing on a
    directory and never fails on a file turns the walk into a left fold over
    [files], unless some directory cannot be listed, in which case the walk
    stops with that [PathError]. *)

Section WalkDirFold.
Context {S : Type} (fn : WalkDirFunc S) (visit : S -> string * option FileInfo -> S).
Hypothesis fn_err : forall p d e s, fn p d (Some e) s = (s, Some e).
Hypothesis fn_dir : forall p n dirs r s, fn p (Some (Dir n dirs r)) None s = (s, None).
Hypothesis fn_file : forall p n info s,
  fn p (Some (File n info)) None s = (visit s (n, info), None).

Local Abbreviation walkOutcome := (walkOutcome fn visit).

Lemma walkEntries_outcome dirs :
  Forall walkOutcome dirs ->
  forall p s,
    (forallb readable dirs = true ->
       walkEntries (walkDir fn) p dirs s = (foldl visit s (flat_map files dirs), None)) /\
    (forallb readable dirs = false ->
       exists s' op pth errno,
         walkEntries (walkDir fn) p dirs s = (s', Some (PathError op pth errno))).
Proof.
  induction 1 as [|d1 rest Hd1 _ IH]; intros p s; simpl.
  - split; [reflexivity | discriminate].
  - destruct (Hd1 (path_Join p (Name d1)) s) as [Hok Hbad].
    destruct (readable d1) eqn:Hr; simpl.
    + rewrite (Hok eq_refl), foldl_app. apply IH.
    + split; [discriminate | intros _].
      destruct (Hbad eq_refl) as (s' & op & pth & errno & ->).
      simpl. eauto 6.
Qed.

Lemma walkDir_outcome d : walkOutcome d.
Proof.
  induction d as [n info | n dirs readErr IH] using Entry_tree_ind; intros p s.
  - simpl. rewrite fn_file. split; [reflexivity | discriminate].
  - simpl. rewrite fn_dir. destruct readErr as [errno|]; simpl.
    + rewrite fn_err. simpl. split; [discriminate | eauto 6].
    + apply walkEntries_outcome, IH.
Qed.

Lemma WalkDir_walkable fsys root s :
  walkable fsys = true ->
  WalkDir fsys root fn s = (foldl visit s (fsFiles fsys), None).
Proof.
  destruct fsys as [errno | d]; [discriminate | intros Hr].
  destruct (walkDir_outcome d root s) as [Hok _].
  unfold WalkDir, fsFiles. rewrite (Hok Hr). reflexivity.
Qed.

Lemma WalkDir_not_walkable fsys root s :
  walkable fsys = false ->
  exists s' op pth errno, WalkDir fsys root fn s = (s', Some (PathError op pth errno)).
Proof.
  destruct fsys as [errno | d]; intros Hr; unfold WalkDir.
  - rewrite fn_err. simpl. eauto 6.
  - destruct (walkDir_outcome d root s) as [_ Hbad].
    destruct (Hbad Hr) as (s' & op & pth & e & ->). simpl. eauto 6.
Qed.
End WalkDirFold.

(** A directory that cannot be listed anywhere in the tree makes the tree
    unreadable. *)
Lemma inTree_unreadable d :
  forall n dirs errno, inTree (Dir n dirs (Some errno)) d -> readable d = false.
Proof.
  induction d as [n0 info | n0 dirs0 readErr IH] using Entry_tree_ind;
    intros n dirs errno Hin; inversion Hin as [Heq | n1 dirs1 r1 d1 Hd1 Hsub Heq]; subst.
  - reflexivity.
  - simpl. apply andb_false_iff. right.
    rewrite Forall_forall in IH.
    destruct (forallb readable dirs0) eqn:Hall; [|reflexivity].
    rewrite forallb_forall in Hall.
    rewrite <- (Hall d1), (IH d1 Hd1 _ _ _ Hsub); [reflexivity|].
    apply list_elem_of_In, Hd1.
Qed.

(** ** The digest index *)

Lemma TrimPrefix_prefixed (p s : string) : TrimPrefix (p +:+ s) p = s.
Proof.
  unfold TrimPrefix, HasPrefix.
  assert (Hp : String.prefix p (p +:+ s) = true).
  { induction p as [|c p IH]; simpl; [destruct s; reflexivity|].
    destruct (ascii_dec c c) as [_ | Hne]; [exact IH | now destruct Hne]. }
  rewrite Hp.
  assert (Hl : forall q, String.length (q +:+ s) = (String.length q + String.length s)%nat).
  { induction q as [|c q IH]; simpl; [reflexivity | now rewrite IH]. }
  rewrite Hl. replace (String.length p + String.length s - String.length p)%nat
    with (String.length s) by lia.
  clear Hp Hl.
  assert (Hs : forall t, String.substring 0 (String.length t) t = t).
  { induction t as [|c t IH]; simpl; [reflexivity | now rewrite IH]. }
  induction p as [|c p IH]; simpl; [apply Hs | exact IH].
Qed.

Lemma TrimPrefix_unprefixed (p s : string) :
  HasPrefix s p = false -> TrimPrefix s p = s.
Proof. unfold TrimPrefix. now intros ->. Qed.

Section DigestIndex.
Implicit Types (m : gmap string Image) (img : Image) (k : string).

Lemma insert_digests_lookup img (ds : list string) m k :
  foldl (fun m dgst => <[TrimPrefix dgst "sha256:" := img]> m) m ds !! k
  = if decide (k ∈ (fun dgst => TrimPrefix dgst "sha256:") <$> ds)
    then Some img else m !! k.
Proof.
  revert m. induction ds as [|d ds IH]; intros m.
  - reflexivity.
  - cbn [foldl fmap list_fmap]. rewrite IH.
    destruct (decide (k ∈ _ <$> ds)) as [Hin | Hnin].
    + rewrite decide_True; [reflexivity | now right].
    + destruct (decide (TrimPrefix d "sha256:" = k)) as [<- | Hne].
      * rewrite lookup_insert_eq, decide_True; [reflexivity | now left].
      * rewrite lookup_insert_ne by assumption.
        rewrite decide_False; [reflexivity|].
        intros [Heq | Hin]%elem_of_cons; congruence.
Qed.

Lemma digests_from_lookup (imgs : list Image) m k :
  foldl (fun m img =>
           foldl (fun m dgst => <[TrimPrefix dgst "sha256:" := img]> m)
                 m (Digests img)) m imgs !! k
  = match last (filter (fun img => k ∈ bareDigests img) imgs) with
    | Some img => Some img
    | None => m !! k
    end.
Proof.
  revert m. induction imgs as [|img imgs IH]; intros m; simpl; [reflexivity|].
  rewrite IH, insert_digests_lookup, filter_cons.
  fold (bareDigests img).
  destruct (decide (k ∈ bareDigests img)) as [Hin | Hnin].
  - rewrite last_cons. now destruct (last _).
  - reflexivity.
Qed.

Lemma digests_lookup (imgs : list Image) k :
  Plain.digests imgs !! k = last (filter (fun img => k ∈ bareDigests img) imgs).
Proof.
  unfold Plain.digests. rewrite digests_from_lookup, lookup_empty.
  now destruct (last _).
Qed.

(** Whatever the index returns is an input image that carries the key. *)
Lemma digests_lookup_Some (imgs : list Image) k img :
  Plain.digests imgs !! k = Some img -> img ∈ imgs /\ k ∈ bareDigests img.
Proof.
  rewrite digests_lookup. intros [l Hl]%last_Some.
  assert (Hin : img ∈ filter (fun img => k ∈ bareDigests img) imgs).
  { rewrite Hl. apply elem_of_app. right. now left. }
  apply list_elem_of_filter in Hin. tauto.
Qed.

(** The last image of the input that carries a key owns it. *)
Lemma digests_lookup_last (before after : list Image) img k :
  k ∈ bareDigests img ->
  (forall x, x ∈ after -> k ∉ bareDigests x) ->
  Plain.digests (before ++ img :: after) !! k = Some img.
Proof.
  intros Hk Hafter. rewrite digests_lookup, filter_app, filter_cons.
  rewrite decide_True by assumption.
  assert (Hnil : filter (fun img => k ∈ bareDigests img) after = []).
  { clear -Hafter. induction after as [|x after IH]; [reflexivity|].
    rewrite filter_cons_False by (apply Hafter; now left).
    apply IH. intros y Hy. apply Hafter. now right. }
  rewrite Hnil. apply last_snoc.
Qed.
End DigestIndex.

(** ** The walk of the first variant *)

Section PlainWalk.
Variable clock : nat -> Time.
Variable maxAge : Duration.
Variable index : gmap string Image.

Local Abbreviation visit := (visitPlain clock maxAge index).
Local Abbreviation walkFn := (Plain.walkFn clock maxAge index).

Lemma walkFn_err p d e st : walkFn p d (Some e) st = (st, Some e).
Proof. reflexivity. Qed.

Lemma walkFn_dir p n dirs r st : walkFn p (Some (Dir n dirs r)) None st = (st, None).
Proof. reflexivity. Qed.

Lemma walkFn_file p n info st :
  walkFn p (Some (File n info)) None st = (visit st (n, info), None).
Proof.
  unfold visitPlain, Plain.walkFn, time_Since, time_Now; simpl.
  destruct (index !! n); [|reflexivity].
  destruct info; [|reflexivity].
  now destruct (maxAge <? _).
Qed.

Lemma visit_unmatched st n info : index !! n = None -> visit st (n, info) = st.
Proof. unfold visitPlain, Plain.walkFn; simpl. now intros ->. Qed.

Lemma visit_unreadable st n img :
  index !! n = Some img -> visit st (n, None) = appendFailed img st.
Proof. unfold visitPlain, Plain.walkFn; simpl. now intros ->. Qed.

Lemma visit_readable st n img info :
  index !! n = Some img ->
  visit st (n, Some info)
  = let st' := setWorld (tick (world st)) st in
    if maxAge <? Sub (clock (ticks (world st))) (Created info)
    then appendNonCompliant img st' else st'.
Proof.
  unfold visitPlain, Plain.walkFn, time_Since, time_Now; simpl. intros ->.
  now destruct (maxAge <? _).
Qed.

(** One call of the callback only ever appends to the two lists. *)
Lemma visit_nonCompliant st f :
  nonCompliant (visit st f) = nonCompliant st \/
  exists n info img,
    f = (n, Some info) /\ index !! n = Some img /\
    maxAge < Sub (clock (ticks (world st))) (Created info) /\
    nonCompliant (visit st f) = (nonCompliant st ++ [img])%list.
Proof.
  destruct f as [n info]. destruct (index !! n) as [img|] eqn:Hn.
  - destruct info as [info|].
    + rewrite (visit_readable _ _ _ _ Hn). simpl.
      destruct (maxAge <? _) eqn:Hage; [|now left].
      right. exists n, info, img. apply Z.ltb_lt in Hage. auto.
    + rewrite (visit_unreadable _ _ _ Hn). now left.
  - rewrite (visit_unmatched _ _ _ Hn). now left.
Qed.

Lemma visit_failedImages st f :
  failedImages (visit st f) = failedImages st \/
  exists n img,
    f = (n, None) /\ index !! n = Some img /\
    failedImages (visit st f) = (failedImages st ++ [img])%list.
Proof.
  destruct f as [n info]. destruct (index !! n) as [img|] eqn:Hn.
  - destruct info as [info|].
    + rewrite (visit_readable _ _ _ _ Hn). simpl.
      destruct (maxAge <? _); now left.
    + rewrite (visit_unreadable _ _ _ Hn). right. exists n, img. auto.
  - rewrite (visit_unmatched _ _ _ Hn). now left.
Qed.

(** Where the members of the two lists come from. *)
Lemma walk_nonCompliant_source fs : forall st x,
  x ∈ nonCompliant (foldl visit st fs) ->
  x ∈ nonCompliant st \/
  exists n info k,
    (n, Some info) ∈ fs /\ index !! n = Some x /\
    maxAge < Sub (clock k) (Created info).
Proof.
  induction fs as [|f fs IH]; intros st x; simpl; [now left|].
  intros [Hin | (n & info & k & Hf & Hn & Hage)]%IH.
  - destruct (visit_nonCompliant st f)
      as [Heq | (n & info & img & -> & Hn & Hage & Heq)]; rewrite Heq in Hin.
    + now left.
    + apply elem_of_app in Hin as [Hin | ->%list_elem_of_singleton]; [now left|].
      right. exists n, info, (ticks (world st)). split; [now left | auto].
  - right. exists n, info, k. split; [now right | auto].
Qed.

Lemma walk_failedImages_source fs : forall st x,
  x ∈ failedImages (foldl visit st fs) ->
  x ∈ failedImages st \/ exists n, (n, None) ∈ fs /\ index !! n = Some x.
Proof.
  induction fs as [|f fs IH]; intros st x; simpl; [now left|].
  intros [Hin | (n & Hf & Hn)]%IH.
  - destruct (visit_failedImages st f)
      as [Heq | (n & img & -> & Hn & Heq)]; rewrite Heq in Hin.
    + now left.
    + apply elem_of_app in Hin as [Hin | ->%list_elem_of_singleton]; [now left|].
      right. exists n. split; [now left | auto].
  - right. exists n. split; [now right | auto].
Qed.

(** Nothing is ever removed from the two lists. *)
Lemma walk_nonCompliant_mono fs : forall st x,
  x ∈ nonCompliant st -> x ∈ nonCompliant (foldl visit st fs).
Proof.
  induction fs as [|f fs IH]; intros st x Hin; simpl; [assumption|].
  apply IH.
  destruct (visit_nonCompliant st f) as [Heq | (? & ? & ? & _ & _ & _ & Heq)];
    rewrite Heq; [assumption | apply elem_of_app; now left].
Qed.

Lemma walk_failedImages_mono fs : forall st x,
  x ∈ failedImages st -> x ∈ failedImages (foldl visit st fs).
Proof.
  induction fs as [|f fs IH]; intros st x Hin; simpl; [assumption|].
  apply IH.
  destruct (visit_failedImages st f) as [Heq | (? & ? & _ & _ & Heq)];
    rewrite Heq; [assumption | apply elem_of_app; now left].
Qed.

(** A matched file that is old at every reading of the clock puts its image
    on the non-compliant list. *)
Lemma walk_old_file fs : forall st n info x,
  (n, Some info) ∈ fs -> index !! n = Some x ->
  (forall k, maxAge < Sub (clock k) (Created info)) ->
  x ∈ nonCompliant (foldl visit st fs).
Proof.
  induction fs as [|f fs IH]; intros st n info x Hf Hn Hold; simpl.
  - now apply elem_of_nil in Hf.
  - apply elem_of_cons in Hf as [<- | Hf]; [|eapply IH; eauto].
    apply walk_nonCompliant_mono. rewrite (visit_readable _ _ _ _ Hn). simpl.
    specialize (Hold (ticks (world st))). apply Z.ltb_lt in Hold. rewrite Hold.
    simpl. apply elem_of_app. right. now left.
Qed.

(** A matched file whose metadata cannot be read puts its image on the
    failed list. *)
Lemma walk_unreadable_file fs : forall st n x,
  (n, None) ∈ fs -> index !! n = Some x ->
  x ∈ failedImages (foldl visit st fs).
Proof.
  induction fs as [|f fs IH]; intros st n x Hf Hn; simpl.
  - now apply elem_of_nil in Hf.
  - apply elem_of_cons in Hf as [<- | Hf]; [|eapply IH; eauto].
    apply walk_failedImages_mono. rewrite (visit_unreadable _ _ _ Hn). simpl.
    apply elem_of_app. right. now left.
Qed.
End PlainWalk.

(** ** The scan of the first variant *)

Section PlainScan.
Variable clock : nat -> Time.
Variable maxAge : Duration.
Variable ctrFs : FS.
Variable allImages : list Image.
Variable w : World.

Local Abbreviation index := (Plain.digests allImages).
Local Abbreviation visit := (visitPlain clock maxAge index).
Local Abbreviation scan := (Plain.scan clock maxAge ctrFs allImages w).
Local Abbreviation walked := (foldl visit (mkScanState [] [] w) (fsFiles ctrFs)).

Lemma walk_succeeds :
  walkable ctrFs = true ->
  WalkDir ctrFs "." (Plain.walkFn clock maxAge index) (mkScanState [] [] w)
  = (walked, None).
Proof.
  apply WalkDir_walkable;
    auto using walkFn_err, walkFn_dir, walkFn_file.
Qed.

Lemma walk_fails :
  walkable ctrFs = false ->
  exists st e,
    WalkDir ctrFs "." (Plain.walkFn clock maxAge index) (mkScanState [] [] w)
    = (st, Some e).
Proof.
  intros Hw.
  destruct (WalkDir_not_walkable (Plain.walkFn clock maxAge index) visit
              (walkFn_err clock maxAge index) (walkFn_dir clock maxAge index)
              (walkFn_file clock maxAge index)
              ctrFs "." (mkScanState [] [] w) Hw)
    as (st & op & pth & errno & Heq).
  eauto.
Qed.

(** The walk returns an error exactly when the tree is not walkable. *)
Lemma walk_error_iff :
  (WalkDir ctrFs "." (Plain.walkFn clock maxAge index) (mkScanState [] [] w)).2 <> None
  <-> walkable ctrFs = false.
Proof.
  destruct (walkable ctrFs) eqn:Hw.
  - rewrite (walk_succeeds Hw). simpl. split; congruence.
  - destruct (walk_fails Hw) as (st & e & ->). simpl. split; congruence.
Qed.

Lemma scan_walkable :
  walkable ctrFs = true ->
  scan = ((nonCompliant walked, failedImages walked), world walked).
Proof. intros Hw. unfold Plain.scan. now rewrite (walk_succeeds Hw). Qed.

Lemma scan_not_walkable : walkable ctrFs = false -> scan.1 = ([], allImages).
Proof.
  intros Hw. unfold Plain.scan.
  now destruct (walk_fails Hw) as (st & e & ->).
Qed.

(** Members of the non-compliant list own a readable file that was too old
    when the clock was read for it. *)
Lemma scan_nonCompliant_source x :
  x ∈ scan.1.1 ->
  walkable ctrFs = true /\
  exists n info k,
    (n, Some info) ∈ fsFiles ctrFs /\ index !! n = Some x /\
    maxAge < Sub (clock k) (Created info).
Proof.
  destruct (walkable ctrFs) eqn:Hw.
  - rewrite (scan_walkable Hw). simpl.
    intros [Hin | Hsrc]%walk_nonCompliant_source; [|auto].
    now apply elem_of_nil in Hin.
  - rewrite (scan_not_walkable Hw). simpl. now intros Hin%elem_of_nil.
Qed.

(** Members of the failed list of a completed walk own a file whose
    metadata could not be read. *)
Lemma scan_failedImages_source x :
  walkable ctrFs = true ->
  x ∈ scan.1.2 ->
  exists n, (n, None) ∈ fsFiles ctrFs /\ index !! n = Some x.
Proof.
  intros Hw. rewrite (scan_walkable Hw). simpl.
  intros [Hin | Hsrc]%walk_failedImages_source; [|auto].
  now apply elem_of_nil in Hin.
Qed.
End PlainScan.

(** ** The two variants side by side *)

Section Variants.
Variable now : Time.
Variable maxAge : Duration.
Variable index : gmap string Image.

Local Abbreviation clock := (fun _ : nat => now).

Lemma Logged_walkFn_file p n info st :
  Logged.walkFn clock maxAge index p (Some (File n info)) None st
  = (visitLogged clock maxAge index st (n, info), None).
Proof.
  unfold visitLogged, Logged.walkFn, time_Since, time_Now; simpl.
  destruct (index !! n); [|reflexivity].
  destruct info; [|reflexivity].
  now destruct (maxAge <? _).
Qed.

(** With the clock standing still, a call of either callback makes the same
    change to the two lists. *)
Lemma visit_agree st1 st2 f :
  nonCompliant st1 = nonCompliant st2 ->
  failedImages st1 = failedImages st2 ->
  nonCompliant (visitPlain clock maxAge index st1 f)
    = nonCompliant (visitLogged clock maxAge index st2 f) /\
  failedImages (visitPlain clock maxAge index st1 f)
    = failedImages (visitLogged clock maxAge index st2 f).
Proof.
  intros Hn Hf. destruct f as [n info].
  unfold visitPlain, visitLogged, Plain.walkFn, Logged.walkFn, time_Since, time_Now; simpl.
  destruct (index !! n); [|auto].
  destruct info; simpl; [|now rewrite Hf].
  destruct (maxAge <? _); simpl; now rewrite ?Hn, ?Hf.
Qed.

Lemma walk_agree fs : forall st1 st2,
  nonCompliant st1 = nonCompliant st2 ->
  failedImages st1 = failedImages st2 ->
  nonCompliant (foldl (visitPlain clock maxAge index) st1 fs)
    = nonCompliant (foldl (visitLogged clock maxAge index) st2 fs) /\
  failedImages (foldl (visitPlain clock maxAge index) st1 fs)
    = failedImages (foldl (visitLogged clock maxAge index) st2 fs).
Proof.
  induction fs as [|f fs IH]; intros st1 st2 Hn Hf; simpl; [auto|].
  apply IH; now apply visit_agree.
Qed.
End Variants.

(** ** Files whose metadata cannot be read *)

Lemma readable_withoutFailing d : readable (withoutFailing d) = readable d.
Proof.
  induction d as [n info | n dirs readErr IH] using Entry_tree_ind; [reflexivity|].
  simpl. f_equal.
  induction IH as [|e rest He _ IHrest]; [reflexivity|]. simpl.
  destruct (infoFails e) eqn:Hfail; simpl.
  - destruct e as [? [?|] | ? ? ?]; try discriminate. exact IHrest.
  - now rewrite He, IHrest.
Qed.

Lemma files_withoutFailing d :
  files (withoutFailing d)
  = if infoFails d then files d else filter (fun f => is_Some f.2) (files d).
Proof.
  induction d as [n info | n dirs readErr IH] using Entry_tree_ind.
  - destruct info; reflexivity.
  - simpl. induction IH as [|e rest He _ IHrest]; [reflexivity|]. simpl.
    rewrite filter_app, <- IHrest.
    destruct (infoFails e) eqn:Hfail.
    + destruct e as [? [?|] | ? ? ?]; try discriminate. reflexivity.
    + simpl. now rewrite He.
Qed.

Lemma walkable_fsWithoutFailing fsys :
  walkable (fsWithoutFailing fsys) = walkable fsys.
Proof. destruct fsys; [reflexivity | apply readable_withoutFailing]. Qed.

Section FailingFiles.
Variable clock : nat -> Time.
Variable maxAge : Duration.
Variable index : gmap string Image.

Local Abbreviation visit := (visitPlain clock maxAge index).

(** The files whose metadata cannot be read have no part in what the walk
    does to the non-compliant list and to the outside world. *)
Lemma walk_without_failing fs : forall st st',
  nonCompliant st = nonCompliant st' -> world st = world st' ->
  nonCompliant (foldl visit st fs)
    = nonCompliant (foldl visit st' (filter (fun f => is_Some f.2) fs)) /\
  world (foldl visit st fs)
    = world (foldl visit st' (filter (fun f => is_Some f.2) fs)).
Proof.
  induction fs as [|[n info] fs IH]; intros st st' Hn Hw; [now split|].
  rewrite filter_cons. cbn [foldl]. destruct info as [info|]; simpl.
  - apply IH; destruct (index !! n) as [img|] eqn:Hidx.
    + rewrite !(visit_readable _ _ _ _ _ _ _ Hidx). simpl.
      rewrite Hw. destruct (maxAge <? _); simpl; now rewrite Hn.
    + now rewrite !(visit_unmatched _ _ _ _ _ _ Hidx).
    + rewrite !(visit_readable _ _ _ _ _ _ _ Hidx). simpl.
      rewrite Hw. now destruct (maxAge <? _).
    + now rewrite !(visit_unmatched _ _ _ _ _ _ Hidx).
  - apply IH; destruct (index !! n) as [img|] eqn:Hidx.
    + now rewrite (visit_unreadable _ _ _ _ _ _ Hidx).
    + now rewrite (visit_unmatched _ _ _ _ _ _ Hidx).
    + now rewrite (visit_unreadable _ _ _ _ _ _ Hidx).
    + now rewrite (visit_unmatched _ _ _ _ _ _ Hidx).
Qed.
End FailingFiles.

Lemma scan_without_failing clock maxAge ctrFs allImages w :
  (Plain.scan clock maxAge (fsWithoutFailing ctrFs) allImages w).1.1
  = (Plain.scan clock maxAge ctrFs allImages w).1.1.
Proof.
  destruct (walkable ctrFs) eqn:Hw.
  - rewrite (scan_walkable _ _ _ _ _ Hw).
    rewrite scan_walkable by now rewrite walkable_fsWithoutFailing.
    simpl. destruct ctrFs as [errno | d]; [reflexivity|]. simpl.
    rewrite files_withoutFailing. destruct (infoFails d); [reflexivity|].
    symmetry. now apply walk_without_failing.
  - rewrite (scan_not_walkable _ _ _ _ _ Hw).
    now rewrite scan_not_walkable by now rewrite walkable_fsWithoutFailing.
Qed.

(** ** The examples of the specification *)

Example scan_example :
  (Plain.scan sampleClock week storeExample [imageA; imageB] world0).1
  = ([imageA], []).
Proof. reflexivity. Qed.

Example scan_example_missing_root :
  (Plain.scan sampleClock week storeMissing [imageA; imageB] world0).1
  = ([], [imageA; imageB]).
Proof. reflexivity. Qed.

Example ParseDuration_example :
  ParseDuration "168h" = (168 * Hour, None) /\
  (ParseDuration "abc").1 = 0 /\ (ParseDuration "abc").2 <> None /\
  (ParseDuration "7d").1 = 0 /\ (ParseDuration "7d").2 <> None /\
  ParseDuration "1h30m" = (90 * Minute, None) /\
  ParseDuration "-1.5h" = (- (90 * Minute), None).
Proof. vm_compute. repeat split; discriminate. Qed.

(** * The claims *)

(** C1 (as amended).  Every image of either list returned by [scan] is an
    input image, and the untouched input images are in neither list.  The
    two lists need not be disjoint: an image is in both only when the
    traversal succeeded and the digest index attributes to it both a file
    with readable metadata that was older than [maxAge] at some reading of
    the clock and a file whose metadata could not be read (so the lists
    are disjoint whenever the traversal fails or no image owns files of
    both kinds). *)
Theorem scan_partition (clock : nat -> Time) (maxAge : Duration) (ctrFs : FS)
    (allImages : list Image) (w : World) :
  let res := (Plain.scan clock maxAge ctrFs allImages w).1 in
  (forall x, x ∈ res.1 \/ x ∈ res.2 -> x ∈ allImages) /\
  (forall x, x ∈ untouched allImages res -> (x ∉ res.1) /\ (x ∉ res.2)) /\
  (forall x, x ∈ res.1 -> x ∈ res.2 ->
     walkable ctrFs = true /\
     exists n1 info k n2,
       (n1, Some info) ∈ fsFiles ctrFs /\
       Plain.digests allImages !! n1 = Some x /\
       maxAge < Sub (clock k) (Created info) /\
       (n2, None) ∈ fsFiles ctrFs /\
       Plain.digests allImages !! n2 = Some x).
Proof.
  intros res. subst res. split; [|split].
  - intros x [Hin | Hin].
    + apply scan_nonCompliant_source in Hin as (_ & n & info & k & _ & Hn & _).
      now apply digests_lookup_Some in Hn.
    + destruct (walkable ctrFs) eqn:Hw.
      * apply (scan_failedImages_source _ _ _ _ _ _ Hw) in Hin as (n & _ & Hn).
        now apply digests_lookup_Some in Hn.
      * now rewrite (scan_not_walkable _ _ _ _ _ Hw) in Hin.
  - intros x Hin. apply list_elem_of_filter in Hin. tauto.
  - intros x (Hw & n1 & info & k & Hf1 & Hn1 & Hage)%scan_nonCompliant_source Hin.
    apply (scan_failedImages_source _ _ _ _ _ _ Hw) in Hin as (n2 & Hf2 & Hn2).
    split; [assumption|]. exists n1, info, k, n2. auto.
Qed.

(** C1, counterexample.  An image with two digests, one naming an old file
    and one naming a file whose metadata cannot be read, is returned in
    both lists. *)
Lemma scan_lists_overlap :
  let res := (Plain.scan sampleClock week storeNoInfo [imageAB] world0).1 in
  ~ (forall x, x ∈ res.1 -> x ∉ res.2).
Proof.
  intros res Hdisj. apply (Hdisj imageAB); vm_compute; apply list_elem_of_here.
Qed.

(** C2.  If the walk returns an error, [scan] returns the empty list as
    [nonCompliant] and the whole input, in input order, as [failed]. *)
Theorem scan_walk_error (clock : nat -> Time) (maxAge : Duration) (ctrFs : FS)
    (allImages : list Image) (w : World) :
  (WalkDir ctrFs "." (Plain.walkFn clock maxAge (Plain.digests allImages))
           (mkScanState [] [] w)).2 <> None ->
  (Plain.scan clock maxAge ctrFs allImages w).1 = ([], allImages).
Proof.
  unfold Plain.scan.
  destruct (WalkDir _ _ _ _) as [st [e|]]; simpl; [reflexivity | congruence].
Qed.

Lemma scan_walk_error_witness :
  (Plain.scan sampleClock week storeMissing [imageA; imageB] world0).1
  = ([], [imageA; imageB]).
Proof.
  apply (scan_walk_error sampleClock week storeMissing [imageA; imageB] world0).
  vm_compute. discriminate.
Defined.

(** C3 (as amended).  When the traversal succeeds, the last input image
    that has a digest naming a regular file of the walked tree (the image
    the digest index keeps for that name) appears in [nonCompliant],
    provided the metadata of the file can be read and its age exceeds
    [maxAge] whenever the clock is read. *)
Theorem scan_old_file_nonCompliant (clock : nat -> Time) (maxAge : Duration)
    (ctrFs : FS) (before after : list Image) (img : Image) (w : World)
    (n : string) (info : FileInfo) :
  walkable ctrFs = true ->
  (n, Some info) ∈ fsFiles ctrFs ->
  n ∈ bareDigests img ->
  (forall x, x ∈ after -> n ∉ bareDigests x) ->
  (forall k, maxAge < Sub (clock k) (Created info)) ->
  img ∈ (Plain.scan clock maxAge ctrFs (before ++ img :: after) w).1.1.
Proof.
  intros Hw Hf Hn Hafter Hold. rewrite (scan_walkable _ _ _ _ _ Hw). simpl.
  eapply walk_old_file; eauto using digests_lookup_last.
Qed.

Lemma scan_old_file_nonCompliant_witness :
  imageA ∈ (Plain.scan sampleClock week storeExample ([imageB] ++ imageA :: [imageB]) world0).1.1.
Proof.
  apply (scan_old_file_nonCompliant sampleClock week storeExample
           [imageB] [imageB] imageA world0 "d1" oldInfo).
  - reflexivity.
  - vm_compute. apply list_elem_of_here.
  - vm_compute. apply list_elem_of_here.
  - intros x Hx. apply list_elem_of_singleton in Hx. subst x. vm_compute.
    intros Hin. apply list_elem_of_singleton in Hin. discriminate.
  - intros k. vm_compute. reflexivity.
Defined.

(** C3, counterexamples.  Each image below has a digest naming the old
    file [d1], yet it is missing from [nonCompliant]: in the first scan a
    later image shares the digest and takes the file, in the second a
    directory cannot be listed and the traversal fails. *)
Lemma scan_old_file_missed :
  ("d1" ∈ bareDigests imageA /\
   ("d1", Some oldInfo) ∈ fsFiles storeExample /\
   week < Sub sampleNow (Created oldInfo) /\
   imageA ∉ (Plain.scan sampleClock week storeExample [imageA; imageC] world0).1.1) /\
  ("d1" ∈ bareDigests imageA /\
   ("d1", Some oldInfo) ∈ fsFiles storeBroken /\
   week < Sub sampleNow (Created oldInfo) /\
   imageA ∉ (Plain.scan sampleClock week storeBroken [imageA] world0).1.1).
Proof.
  repeat split; try (vm_compute; apply list_elem_of_here).
  - vm_compute. intros Hin. apply list_elem_of_singleton in Hin. discriminate.
  - vm_compute. apply not_elem_of_nil.
Qed.

(** C4 (as amended).  When the traversal succeeds, an image all of whose
    matching files have readable metadata and an age of at most [maxAge]
    whenever the clock is read appears in neither list; the comparison is
    strict, so an age equal to [maxAge] does not make the image
    non-compliant. *)
Theorem scan_young_file_untouched (clock : nat -> Time) (maxAge : Duration)
    (ctrFs : FS) (allImages : list Image) (w : World) (img : Image) :
  walkable ctrFs = true ->
  (forall n info, (n, info) ∈ fsFiles ctrFs -> n ∈ bareDigests img ->
     exists i, info = Some i /\ forall k, Sub (clock k) (Created i) <= maxAge) ->
  (img ∉ (Plain.scan clock maxAge ctrFs allImages w).1.1) /\
  (img ∉ (Plain.scan clock maxAge ctrFs allImages w).1.2).
Proof.
  intros Hw Hyoung. split; intros Hin.
  - apply scan_nonCompliant_source in Hin as (_ & n & info & k & Hf & Hn & Hage).
    apply digests_lookup_Some in Hn as [_ Hn].
    destruct (Hyoung _ _ Hf Hn) as (i & [= <-] & Hle). specialize (Hle k). lia.
  - apply (scan_failedImages_source _ _ _ _ _ _ Hw) in Hin as (n & Hf & Hn).
    apply digests_lookup_Some in Hn as [_ Hn].
    now destruct (Hyoung _ _ Hf Hn) as (i & ? & _).
Qed.

Lemma scan_young_file_untouched_witness :
  (imageB ∉ (Plain.scan sampleClock week storeBoundary [imageA; imageB] world0).1.1) /\
  (imageB ∉ (Plain.scan sampleClock week storeBoundary [imageA; imageB] world0).1.2).
Proof.
  apply (scan_young_file_untouched sampleClock week storeBoundary
           [imageA; imageB] world0 imageB).
  - reflexivity.
  - intros n info Hf Hn. vm_compute in Hn. apply list_elem_of_singleton in Hn.
    subst n. vm_compute in Hf.
    apply elem_of_cons in Hf as [[=] | Hf].
    apply list_elem_of_singleton in Hf. injection Hf as ->.
    exists weekOldInfo. split; [reflexivity|]. intros k. vm_compute. discriminate.
Defined.

(** C4, counterexample.  The only file matching [imageB] is readable and
    one hour old, but a directory of the store cannot be listed: the
    traversal fails and [imageB] is returned as failed. *)
Lemma scan_young_file_failed :
  (forall n info, (n, info) ∈ fsFiles storeBroken -> n ∈ bareDigests imageB ->
     info = Some freshInfo) /\
  Sub sampleNow (Created freshInfo) <= week /\
  imageB ∈ (Plain.scan sampleClock week storeBroken [imageA; imageB] world0).1.2.
Proof.
  split; [|split].
  - intros n info Hf Hn. vm_compute in Hn. apply list_elem_of_singleton in Hn.
    subst n. vm_compute in Hf.
    apply elem_of_cons in Hf as [[=] | Hf].
    apply list_elem_of_singleton in Hf. now injection Hf as ->.
  - vm_compute. discriminate.
  - vm_compute. apply list_elem_of_further, list_elem_of_here.
Qed.

(** C5.  On a file that the index attributes to an image and whose
    metadata cannot be read, the callback appends the image to
    [failedImages], leaves [nonCompliant] and the outside world as they
    were and returns no error, so the walk goes on.  Whatever the rest of
    the store looks like, the image is in the failed list that [scan]
    returns, and the non-compliant list is the one [scan] returns for the
    store without the files whose metadata cannot be read. *)
Theorem metadata_failure_is_local (clock : nat -> Time) (maxAge : Duration)
    (ctrFs : FS) (allImages : list Image) (w : World) (n : string) (img : Image) :
  (n, None) ∈ fsFiles ctrFs ->
  Plain.digests allImages !! n = Some img ->
  (forall path st,
     let '(st', err) :=
       Plain.walkFn clock maxAge (Plain.digests allImages) path
                    (Some (File n None)) None st in
     failedImages st' = (failedImages st ++ [img])%list /\
     nonCompliant st' = nonCompliant st /\
     world st' = world st /\
     err = None) /\
  img ∈ (Plain.scan clock maxAge ctrFs allImages w).1.2 /\
  (Plain.scan clock maxAge ctrFs allImages w).1.1
  = (Plain.scan clock maxAge (fsWithoutFailing ctrFs) allImages w).1.1.
Proof.
  intros Hf Hn. split; [|split].
  - intros path st. unfold Plain.walkFn. rewrite Hn. simpl. auto.
  - destruct (walkable ctrFs) eqn:Hw.
    + rewrite (scan_walkable _ _ _ _ _ Hw). simpl.
      eapply walk_unreadable_file; eauto.
    + rewrite (scan_not_walkable _ _ _ _ _ Hw). simpl.
      now apply digests_lookup_Some in Hn.
  - symmetry. apply scan_without_failing.
Qed.

Lemma metadata_failure_is_local_witness :
  imageB ∈ (Plain.scan sampleClock week storeNoInfo [imageA; imageB] world0).1.2.
Proof.
  apply (metadata_failure_is_local sampleClock week storeNoInfo
           [imageA; imageB] world0 "d2" imageB).
  - vm_compute. apply list_elem_of_further, list_elem_of_here.
  - vm_compute. reflexivity.
Defined.

(** C6.  When the traversal succeeds, an image without digests, or none of
    whose digests (stripped of [sha256:]) is the base name of a file of
    the walked tree, is in neither list. *)
Theorem scan_unmatched_image_untouched (clock : nat -> Time) (maxAge : Duration)
    (ctrFs : FS) (allImages : list Image) (w : World) (img : Image) :
  walkable ctrFs = true ->
  Digests img = [] \/
  (forall n info, (n, info) ∈ fsFiles ctrFs -> n ∉ bareDigests img) ->
  (img ∉ (Plain.scan clock maxAge ctrFs allImages w).1.1) /\
  (img ∉ (Plain.scan clock maxAge ctrFs allImages w).1.2).
Proof.
  intros Hw Hno.
  assert (Hnone : forall n info, (n, info) ∈ fsFiles ctrFs -> n ∉ bareDigests img).
  { destruct Hno as [Hnil | Hno]; [|assumption].
    intros n info _. unfold bareDigests. rewrite Hnil. apply not_elem_of_nil. }
  split; intros Hin.
  - apply scan_nonCompliant_source in Hin as (_ & n & info & k & Hf & Hn & _).
    apply digests_lookup_Some in Hn as [_ Hn]. exact (Hnone _ _ Hf Hn).
  - apply (scan_failedImages_source _ _ _ _ _ _ Hw) in Hin as (n & Hf & Hn).
    apply digests_lookup_Some in Hn as [_ Hn]. exact (Hnone _ _ Hf Hn).
Qed.

Lemma scan_unmatched_image_untouched_witness :
  (imageEmpty ∉ (Plain.scan sampleClock week storeNoInfo
                   [imageEmpty; imageA; imageB] world0).1.1) /\
  (imageEmpty ∉ (Plain.scan sampleClock week storeNoInfo
                   [imageEmpty; imageA; imageB] world0).1.2).
Proof.
  apply (scan_unmatched_image_untouched sampleClock week storeNoInfo
           [imageEmpty; imageA; imageB] world0 imageEmpty).
  - reflexivity.
  - left. reflexivity.
Defined.

(** C7.  The digest index is keyed by bare digests: a digest written with
    the [sha256:] prefix is entered without it.  Looking a key up yields
    the last image of the input list that has a digest with that bare
    form, so when two images share a digest the later one is kept, and the
    callback attributes a file with that name to this image. *)
Theorem digests_last_write_wins (allImages : list Image) (k : string) :
  (forall h, TrimPrefix ("sha256:" +:+ h) "sha256:" = h) /\
  Plain.digests allImages !! k
    = last (filter (fun img => k ∈ bareDigests img) allImages) /\
  (forall clock maxAge path st,
     Plain.walkFn clock maxAge (Plain.digests allImages) path
                  (Some (File k None)) None st
     = (match last (filter (fun img => k ∈ bareDigests img) allImages) with
        | Some img => appendFailed img st
        | None => st
        end, None)).
Proof.
  split; [|split].
  - intros h. apply TrimPrefix_prefixed.
  - apply digests_lookup.
  - intros clock maxAge path st. unfold Plain.walkFn.
    rewrite digests_lookup. now destruct (last _).
Qed.

(** C9.  If the root of the store is missing, or any directory of the tree
    cannot be listed, the callback is handed the error, the walk aborts
    and [scan] returns the all-failed partition, whatever had been
    classified before. *)
Theorem scan_entry_error_discards_all (clock : nat -> Time) (maxAge : Duration)
    (ctrFs : FS) (allImages : list Image) (w : World) :
  (exists errno, ctrFs = Missing errno) \/
  (exists d n dirs errno,
     ctrFs = Root d /\ inTree (Dir n dirs (Some errno)) d) ->
  (Plain.scan clock maxAge ctrFs allImages w).1 = ([], allImages).
Proof.
  intros Herr. apply scan_not_walkable.
  destruct Herr as [[errno ->] | (d & n & dirs & errno & -> & Hin)].
  - reflexivity.
  - simpl. eapply inTree_unreadable; eauto.
Qed.

(** In [storeBroken] the walk has already put [imageA] on the
    non-compliant list when it reaches the directory that cannot be
    listed; the scan still returns the all-failed partition. *)
Lemma scan_entry_error_discards_all_witness :
  nonCompliant
    (WalkDir storeBroken "." (Plain.walkFn sampleClock week (Plain.digests [imageA; imageB]))
             (mkScanState [] [] world0)).1 = [imageA] /\
  (Plain.scan sampleClock week storeBroken [imageA; imageB] world0).1
  = ([], [imageA; imageB]).
Proof.
  split; [reflexivity|].
  apply (scan_entry_error_discards_all sampleClock week storeBroken
           [imageA; imageB] world0).
  right. eexists _, "ingest", [], "permission denied". split; [reflexivity|].
  eapply inTree_below; [apply list_elem_of_here|].
  eapply inTree_below; [apply list_elem_of_here|].
  eapply inTree_below; [apply list_elem_of_further, list_elem_of_further, list_elem_of_here|].
  apply inTree_here.
Defined.

(** C10.  At any fixed current time, the [scan] functions of the two
    variants return the same pair of lists for every threshold, store and
    input, from whatever state of the log and of the clock counter they
    start; the second variant only writes more to the log and reads the
    clock twice for every file it inspects. *)
Theorem scan_variants_agree (now : Time) (maxAge : Duration) (ctrFs : FS)
    (allImages : list Image) (w1 w2 : World) :
  (Logged.scan (fun _ => now) maxAge ctrFs allImages w2).1
  = (Plain.scan (fun _ => now) maxAge ctrFs allImages w1).1.
Proof.
  destruct (walkable ctrFs) eqn:Hw.
  - rewrite (scan_walkable _ _ _ _ _ Hw). unfold Logged.scan.
    rewrite (WalkDir_walkable _ (visitLogged (fun _ => now) maxAge (Logged.digests allImages)))
      by auto using Logged_walkFn_file.
    simpl.
    destruct (walk_agree now maxAge (Plain.digests allImages) (fsFiles ctrFs)
                (mkScanState [] [] w1) (mkScanState [] [] w2) eq_refl eq_refl)
      as [Hn Hf].
    change (Logged.digests allImages) with (Plain.digests allImages).
    now rewrite Hn, Hf.
  - rewrite (scan_not_walkable _ _ _ _ _ Hw). unfold Logged.scan.
    destruct (WalkDir_not_walkable
                (Logged.walkFn (fun _ => now) maxAge (Logged.digests allImages))
                (visitLogged (fun _ => now) maxAge (Logged.digests allImages))
                (fun _ _ _ _ => eq_refl) (fun _ _ _ _ _ => eq_refl)
                (Logged_walkFn_file now maxAge _)
                ctrFs "." (mkScanState [] [] w2) Hw)
      as (st & op & pth & errno & ->).
    reflexivity.
Qed.

(** The agreement needs the clock to stand still: fed the same readings of
    a moving clock, the second variant spends one on its log line and
    classifies with the next. *)
Remark scan_variants_moving_clock :
  (Plain.scan movingClock week storeExample [imageA] world0).1 = ([], []) /\
  (Logged.scan movingClock week storeExample [imageA] world0).1 = ([imageA], []).
Proof. split; reflexivity. Qed.

(** C8.  [main] of the first variant parses ["168h"] to 168 hours, which
    is also the initial value of [maxAge].  It does not fall back to that
    value: an unparsable string such as ["abc"] leaves [maxAge] at the
    zero that [time.ParseDuration] returns with its error, and so does a
    configuration that sets no [maxAge] (the file cannot be read, or the
    scanner block has no such key), because the built-in default ["7d"]
    is itself not a duration Go can parse.  Only an empty [MaxAge] keeps
    the initial 168 hours. *)
Theorem main_maxAge_no_fallback :
  initialMaxAge = 168 * Hour /\
  (forall maxAge w, (Plain.applyMaxAge (mkConfig "168h") maxAge w).1 = 168 * Hour) /\
  (forall w, (Plain.applyMaxAge (mkConfig "abc") initialMaxAge w).1 = 0) /\
  (forall w, (Plain.applyMaxAge (mkConfig "7d") initialMaxAge w).1 = 0) /\
  (forall w, (Plain.applyMaxAge (mkConfig EmptyString) initialMaxAge w).1
             = initialMaxAge) /\
  (forall e unmarshalEraserConfig unmarshalConfig config w,
     (Plain.main_maxAge (fun _ => inr e) unmarshalEraserConfig unmarshalConfig
                        config w).1 = 0) /\
  (forall ReadFile unmarshalEraserConfig config w,
     (Plain.main_maxAge ReadFile unmarshalEraserConfig (fun _ cfg => (cfg, None))
                        config w).1 = 0).
Proof.
  do 5 (split; [reflexivity|]). split.
  - intros e ue uc config w. unfold Plain.main_maxAge, Plain.loadConfig.
    reflexivity.
  - intros ReadFile ue config w. unfold Plain.main_maxAge, Plain.loadConfig.
    destruct (ReadFile _) as [b | e]; [|reflexivity].
    destruct (ue b) as [y err]. reflexivity.
Qed.

(** The second variant made both paths explicit: its built-in default is
    ["168h"], and a string that does not parse ends the run with exit
    code 1. *)
Remark Logged_main_maxAge :
  (forall ReadFile b y config w,
     ReadFile (if String.eqb config EmptyString then defaultConfigPath else config)
       = inl b ->
     (Logged.main_maxAge ReadFile (fun _ => (Some y, None))
        (fun _ cfg => (cfg, None)) None config w).1 = Returned (168 * Hour)) /\
  (forall ReadFile b y config w,
     ReadFile (if String.eqb config EmptyString then defaultConfigPath else config)
       = inl b ->
     (Logged.main_maxAge ReadFile (fun _ => (Some y, None))
        (fun _ _ => (mkConfig "abc", None)) None config w).1 = Exited 1).
Proof.
  split; intros ReadFile b y config w Hread;
    unfold Logged.main_maxAge, Logged.loadConfig; rewrite Hread; reflexivity.
Qed.

(** * Further properties of the scanner *)

(** ** The walk keeps what every call of the callback keeps *)

Section WalkDirInvariant.
Context {S : Type} (fn : WalkDirFunc S) (P : S -> Prop).
Hypothesis fn_keeps : forall p d e s, P s -> P (fn p d e s).1.

Lemma walkEntries_invariant dirs :
  Forall (fun d => forall p s, P s -> P (walkDir fn p d s).1) dirs ->
  forall p s, P s -> P (walkEntries (walkDir fn) p dirs s).1.
Proof.
  induction 1 as [|d1 rest Hd1 _ IH]; intros p s Hs; simpl; [assumption|].
  specialize (Hd1 (path_Join p (Name d1)) s Hs).
  destruct (walkDir fn _ d1 s) as [s' [err|]]; simpl in *.
  - now destruct (isSkipDir err).
  - now apply IH.
Qed.

Lemma walkDir_invariant d : forall p s, P s -> P (walkDir fn p d s).1.
Proof.
  induction d as [n info | n dirs readErr IH] using Entry_tree_ind; intros p s Hs.
  - simpl. pose proof (fn_keeps p (Some (File n info)) None s Hs) as H1.
    destruct (fn p _ None s) as [s1 [err|]]; simpl in *; [|assumption].
    now destruct (isSkipDir err && false).
  - cbn [walkDir].
    pose proof (fn_keeps p (Some (Dir n dirs readErr)) None s Hs) as H1.
    destruct (fn p _ None s) as [s1 [err|]]; cbn [fst] in H1.
    { now destruct (isSkipDir err && IsDir _). }
    destruct readErr as [errno|].
    + pose proof (fn_keeps p (Some (Dir n dirs (Some errno)))
                    (Some (PathError "readdir" p errno)) s1 H1) as H2.
      destruct (fn p _ (Some _) s1) as [s2 [err|]]; cbn [fst] in H2.
      * now destruct (isSkipDir err && IsDir _).
      * now apply walkEntries_invariant.
    + now apply walkEntries_invariant.
Qed.

Lemma WalkDir_invariant fsys root s : P s -> P (WalkDir fsys root fn s).1.
Proof.
  intros Hs. unfold WalkDir.
  assert (Hinner : P (match fsys with
                      | Missing errno => fn root None (Some (PathError "stat" root errno)) s
                      | Root d => walkDir fn root d s
                      end).1).
  { destruct fsys; [now apply fn_keeps | now apply walkDir_invariant]. }
  destruct (match fsys with Missing _ => _ | Root _ => _ end) as [s' [e|]];
    simpl in *; [|assumption].
  now destruct (isSkipDir e || isSkipAll e).
Qed.
End WalkDirInvariant.

(** ** One call of the callback, in closed form *)

Lemma visitPlain_eq clock maxAge (index : gmap string Image) st n info :
  visitPlain clock maxAge index st (n, info)
  = match index !! n with
    | None => st
    | Some img =>
        match info with
        | None => appendFailed img st
        | Some i =>
            let st' := setWorld (tick (world st)) st in
            if maxAge <? Sub (clock (ticks (world st))) (Created i)
            then appendNonCompliant img st' else st'
        end
    end.
Proof.
  destruct (index !! n) as [img|] eqn:Hidx.
  - destruct info as [i|].
    + now apply visit_readable.
    + now apply visit_unreadable.
  - now apply visit_unmatched.
Qed.

Lemma visitLogged_eq clock maxAge (index : gmap string Image) st n info :
  visitLogged clock maxAge index st (n, info)
  = match index !! n with
    | None => st
    | Some img =>
        match info with
        | None => appendFailed img st
        | Some i =>
            let w := world st in
            let w' :=
              tick (log_Info "image scanned"
                      [("image", LImage img); ("created_at", LTime (Created i));
                       ("image age", LDuration (Sub (clock (ticks w)) (Created i)))]
                      (tick w)) in
            let st' := setWorld w' st in
            if maxAge <? Sub (clock (S (ticks w))) (Created i)
            then appendNonCompliant img st' else st'
        end
    end.
Proof.
  unfold visitLogged, Logged.walkFn, time_Since, time_Now; simpl.
  destruct (index !! n) as [img|]; [|reflexivity].
  destruct info as [i|]; [|reflexivity].
  now destruct (maxAge <? _).
Qed.

Lemma Sub_range (t u : Time) : minDuration <= Sub t u <= maxDuration.
Proof.
  unfold Sub, minDuration, maxDuration.
  destruct (t - u <? - 2 ^ 63) eqn:Hlo; [lia|].
  destruct (2 ^ 63 - 1 <? t - u) eqn:Hhi; lia.
Qed.

(** ** The walk of the first variant, list by list *)

Section PlainFold.
Variable clock : nat -> Time.
Variable maxAge : Duration.
Variable index : gmap string Image.

Local Abbreviation visit := (visitPlain clock maxAge index).

Lemma walk_failedImages_exact fs : forall st,
  failedImages (foldl visit st fs)
  = (failedImages st ++ omap (unreadableOwner index) fs)%list.
Proof.
  induction fs as [|[n info] fs IH]; intros st; cbn [foldl omap list_omap].
  - now rewrite app_nil_r.
  - rewrite IH, visitPlain_eq. unfold unreadableOwner at 2. simpl.
    destruct (index !! n) as [img|]; destruct info as [i|]; simpl;
      try reflexivity.
    + now destruct (maxAge <? _).
    + now rewrite <- app_assoc.
Qed.

Lemma walk_effects fs : forall st,
  ticks (world (foldl visit st fs))
    = (ticks (world st) + length (filter (inspected index) fs))%nat /\
  logs (world (foldl visit st fs)) = logs (world st).
Proof.
  induction fs as [|[n info] fs IH]; intros st; cbn [foldl].
  - simpl. split; [lia | reflexivity].
  - destruct (IH (visit st (n, info))) as [-> ->].
    rewrite filter_cons, visitPlain_eq.
    destruct (decide (inspected index (n, info))) as [[[img Hm] [i Hi]] | Hnot];
      simpl in *.
    + subst info. rewrite Hm. destruct (maxAge <? _); simpl; split; (lia || reflexivity).
    + destruct (index !! n) as [img|] eqn:Hm; [|split; (lia || reflexivity)].
      destruct info as [i|]; [|split; (simpl; lia) || reflexivity].
      exfalso. apply Hnot. split; eexists; [exact Hm | reflexivity].
Qed.

Lemma walk_length fs : forall st,
  (length (nonCompliant (foldl visit st fs))
   + length (failedImages (foldl visit st fs))
   <= length (nonCompliant st) + length (failedImages st)
      + length (filter (matched index) fs))%nat.
Proof.
  induction fs as [|[n info] fs IH]; intros st; cbn [foldl].
  - simpl. lia.
  - etransitivity; [apply IH|].
    rewrite filter_cons, visitPlain_eq.
    destruct (decide (matched index (n, info))) as [[img Hm] | Hnot]; simpl in *.
    + rewrite Hm.
      destruct info as [i|]; simpl; [destruct (maxAge <? _); simpl|];
        rewrite ?length_app; simpl; lia.
    + destruct (index !! n) as [img|] eqn:Hm; [|lia].
      exfalso. apply Hnot. eexists. exact Hm.
Qed.

Lemma walk_saturated fs : forall st,
  maxDuration <= maxAge ->
  nonCompliant (foldl visit st fs) = nonCompliant st.
Proof.
  induction fs as [|[n info] fs IH]; intros st Hmax; cbn [foldl]; [reflexivity|].
  rewrite (IH _ Hmax), visitPlain_eq.
  destruct (index !! n) as [img|]; [|reflexivity].
  destruct info as [i|]; [|reflexivity]. simpl.
  pose proof (Sub_range (clock (ticks (world st))) (Created i)) as Hr.
  destruct (maxAge <? _) eqn:Hlt; [apply Z.ltb_lt in Hlt; lia | reflexivity].
Qed.
End PlainFold.

Lemma walk_nonCompliant_fixed now maxAge (index : gmap string Image) fs : forall st,
  nonCompliant (foldl (visitPlain (fun _ => now) maxAge index) st fs)
  = (nonCompliant st ++ omap (flagged now maxAge index) fs)%list.
Proof.
  induction fs as [|[n info] fs IH]; intros st; cbn [foldl omap list_omap].
  - now rewrite app_nil_r.
  - rewrite IH, visitPlain_eq. unfold flagged at 2. simpl.
    destruct (index !! n) as [img|]; destruct info as [i|]; simpl;
      try reflexivity.
    + destruct (maxAge <? _); simpl; [now rewrite <- app_assoc | reflexivity].
    + now destruct (maxAge <? _).
Qed.

(** Raising the threshold only removes entries from the non-compliant
    list. *)
Lemma walk_threshold_mono clock (index : gmap string Image) m1 m2 fs :
  m1 <= m2 ->
  forall st1 st2,
    nonCompliant st2 `sublist_of` nonCompliant st1 ->
    world st1 = world st2 ->
    nonCompliant (foldl (visitPlain clock m2 index) st2 fs)
      `sublist_of` nonCompliant (foldl (visitPlain clock m1 index) st1 fs).
Proof.
  intros Hle. induction fs as [|[n info] fs IH]; intros st1 st2 Hsub Hw;
    cbn [foldl]; [assumption|].
  apply IH; rewrite !visitPlain_eq; destruct (index !! n) as [img|];
    try assumption; destruct info as [i|]; simpl; try assumption.
  - rewrite Hw.
    destruct (m2 <? _) eqn:H2; destruct (m1 <? _) eqn:H1; simpl.
    + now apply sublist_app.
    + apply Z.ltb_lt in H2. apply Z.ltb_ge in H1. lia.
    + now apply sublist_inserts_r.
    + assumption.
  - rewrite Hw. now destruct (m2 <? _), (m1 <? _).
Qed.

Lemma walkFn_keeps_logs clock maxAge (index : gmap string Image) (l : list LogEntry)
    p d e st :
  logs (world st) = l ->
  logs (world (Plain.walkFn clock maxAge index p d e st).1) = l.
Proof.
  intros Hl. unfold Plain.walkFn, time_Since, time_Now.
  destruct e; [assumption|]. destruct d as [[n info | n dirs r]|]; try assumption.
  destruct (index !! n); [|assumption]. destruct info; [|assumption].
  now destruct (maxAge <? _).
Qed.

(** ** Further properties of [scan] *)

(** X1.  Without input images [scan] returns two empty lists, whatever the
    state of the store (a failed traversal included). *)
Theorem scan_no_images (clock : nat -> Time) (maxAge : Duration) (ctrFs : FS)
    (w : World) :
  (Plain.scan clock maxAge ctrFs [] w).1 = ([], []).
Proof.
  destruct (walkable ctrFs) eqn:Hw.
  - rewrite (scan_walkable _ _ _ _ _ Hw). simpl.
    assert (Hidle : forall fs st,
              foldl (visitPlain clock maxAge (Plain.digests [])) st fs = st).
    { induction fs as [|[n info] fs IH]; intros st; simpl; [reflexivity|].
      now rewrite visit_unmatched by apply lookup_empty. }
    now rewrite Hidle.
  - now rewrite (scan_not_walkable _ _ _ _ _ Hw).
Qed.

(** X2.  With the clock standing at [now] and a traversal that succeeds,
    the non-compliant list is, in walk order and with repetitions, the
    owner of every file whose metadata is readable and whose age exceeds
    [maxAge], and the failed list the owner of every file whose metadata
    cannot be read. *)
Theorem scan_fixed_clock_lists (now : Time) (maxAge : Duration) (ctrFs : FS)
    (allImages : list Image) (w : World) :
  walkable ctrFs = true ->
  (Plain.scan (fun _ => now) maxAge ctrFs allImages w).1
  = (omap (flagged now maxAge (Plain.digests allImages)) (fsFiles ctrFs),
     omap (unreadableOwner (Plain.digests allImages)) (fsFiles ctrFs)).
Proof.
  intros Hw. rewrite (scan_walkable _ _ _ _ _ Hw). simpl.
  now rewrite walk_nonCompliant_fixed, walk_failedImages_exact.
Qed.

Lemma scan_fixed_clock_lists_witness :
  (Plain.scan (fun _ => sampleNow) week storeNoInfo [imageAB; imageB] world0).1
  = (omap (flagged sampleNow week (Plain.digests [imageAB; imageB])) (fsFiles storeNoInfo),
     omap (unreadableOwner (Plain.digests [imageAB; imageB])) (fsFiles storeNoInfo)).
Proof.
  apply (scan_fixed_clock_lists sampleNow week storeNoInfo [imageAB; imageB] world0).
  reflexivity.
Defined.

(** X3.  The failed list depends neither on the clock nor on the
    threshold: it is the whole input when the store is not walkable, and
    otherwise the owners of the files whose metadata cannot be read, in
    walk order. *)
Theorem scan_failed_list_exact (clock : nat -> Time) (maxAge : Duration)
    (ctrFs : FS) (allImages : list Image) (w : World) :
  (Plain.scan clock maxAge ctrFs allImages w).1.2
  = if walkable ctrFs
    then omap (unreadableOwner (Plain.digests allImages)) (fsFiles ctrFs)
    else allImages.
Proof.
  destruct (walkable ctrFs) eqn:Hw.
  - rewrite (scan_walkable _ _ _ _ _ Hw). simpl.
    now rewrite walk_failedImages_exact.
  - now rewrite (scan_not_walkable _ _ _ _ _ Hw).
Qed.

(** X4.  When the traversal succeeds every file known to the index adds at
    most one entry to the two lists together: their total length is at
    most the number of files whose base name is a key of the index. *)
Theorem scan_one_entry_per_file (clock : nat -> Time) (maxAge : Duration)
    (ctrFs : FS) (allImages : list Image) (w : World) :
  walkable ctrFs = true ->
  (length (Plain.scan clock maxAge ctrFs allImages w).1.1
   + length (Plain.scan clock maxAge ctrFs allImages w).1.2
   <= length (filter (matched (Plain.digests allImages)) (fsFiles ctrFs)))%nat.
Proof.
  intros Hw. rewrite (scan_walkable _ _ _ _ _ Hw). simpl.
  etransitivity; [apply walk_length|]. simpl. lia.
Qed.

Lemma scan_one_entry_per_file_witness :
  (length (Plain.scan sampleClock week storeNoInfo [imageA; imageB] world0).1.1
   + length (Plain.scan sampleClock week storeNoInfo [imageA; imageB] world0).1.2
   <= length (filter (matched (Plain.digests [imageA; imageB])) (fsFiles storeNoInfo)))%nat.
Proof.
  apply (scan_one_entry_per_file sampleClock week storeNoInfo [imageA; imageB] world0).
  reflexivity.
Defined.

(** X5.  Raising the threshold never adds to the non-compliant list: the
    list obtained with the larger [maxAge] is a sublist of the one
    obtained with the smaller, for the same clock, store and input. *)
Theorem scan_threshold_monotone (clock : nat -> Time) (m1 m2 : Duration)
    (ctrFs : FS) (allImages : list Image) (w : World) :
  m1 <= m2 ->
  (Plain.scan clock m2 ctrFs allImages w).1.1
    `sublist_of` (Plain.scan clock m1 ctrFs allImages w).1.1.
Proof.
  intros Hle. destruct (walkable ctrFs) eqn:Hw.
  - rewrite !(scan_walkable _ _ _ _ _ Hw). simpl.
    now apply walk_threshold_mono.
  - now rewrite !(scan_not_walkable _ _ _ _ _ Hw).
Qed.

Lemma scan_threshold_monotone_witness :
  (Plain.scan sampleClock week storeExample [imageA; imageB] world0).1.1
    `sublist_of` (Plain.scan sampleClock Minute storeExample [imageA; imageB] world0).1.1.
Proof.
  apply (scan_threshold_monotone sampleClock Minute week storeExample
           [imageA; imageB] world0).
  vm_compute. discriminate.
Defined.

(** X6.  [time.Since] saturates at the largest [Duration] and the
    comparison with [maxAge] is strict, so with [maxAge] at that largest
    value (or beyond) no image is ever reported non-compliant. *)
Theorem scan_saturated_threshold (clock : nat -> Time) (maxAge : Duration)
    (ctrFs : FS) (allImages : list Image) (w : World) :
  maxDuration <= maxAge ->
  (Plain.scan clock maxAge ctrFs allImages w).1.1 = [].
Proof.
  intros Hmax. destruct (walkable ctrFs) eqn:Hw.
  - rewrite (scan_walkable _ _ _ _ _ Hw). simpl. now rewrite walk_saturated.
  - now rewrite (scan_not_walkable _ _ _ _ _ Hw).
Qed.

Lemma scan_saturated_threshold_witness :
  (Plain.scan (fun _ => 2 ^ 70) maxDuration storeExample [imageA; imageB] world0).1.1 = [].
Proof.
  apply (scan_saturated_threshold (fun _ => 2 ^ 70) maxDuration storeExample
           [imageA; imageB] world0).
  vm_compute. discriminate.
Defined.

(** X7.  What the first variant's [scan] does to the outside world.  When
    the traversal succeeds it writes nothing to the log and reads the clock
    once for every file that the index knows and whose metadata can be
    read; when it fails the log grows by exactly one error record. *)
Theorem scan_effects (clock : nat -> Time) (maxAge : Duration) (ctrFs : FS)
    (allImages : list Image) (w : World) :
  let w' := (Plain.scan clock maxAge ctrFs allImages w).2 in
  if walkable ctrFs
  then ticks w' = (ticks w + length (filter (inspected (Plain.digests allImages))
                                            (fsFiles ctrFs)))%nat /\
       logs w' = logs w
  else logs w' = (logs w ++ [LogError (Errorf "directory scan failed")
                                      "all images considered failed"])%list.
Proof.
  intros w'. subst w'. destruct (walkable ctrFs) eqn:Hw.
  - rewrite (scan_walkable _ _ _ _ _ Hw). simpl. apply walk_effects.
  - pose proof (WalkDir_invariant
                  (Plain.walkFn clock maxAge (Plain.digests allImages))
                  (fun st => logs (world st) = logs w)
                  (fun p d e st => walkFn_keeps_logs clock maxAge _ (logs w) p d e st)
                  ctrFs "." (mkScanState [] [] w) eq_refl) as Hlogs.
    unfold Plain.scan.
    destruct (walk_fails clock maxAge ctrFs allImages w Hw) as (st & e & Heq).
    rewrite Heq in Hlogs |- *. simpl in *. now rewrite Hlogs.
Qed.

(** X8.  Only the files matter: two walkable stores with the same files in
    the same walk order give the same result and the same effects,
    however their directories are laid out or named. *)
Theorem scan_same_files (clock : nat -> Time) (maxAge : Duration)
    (fs1 fs2 : FS) (allImages : list Image) (w : World) :
  walkable fs1 = true -> walkable fs2 = true ->
  fsFiles fs1 = fsFiles fs2 ->
  Plain.scan clock maxAge fs1 allImages w = Plain.scan clock maxAge fs2 allImages w.
Proof.
  intros Hw1 Hw2 Hfiles.
  now rewrite (scan_walkable _ _ _ _ _ Hw1), (scan_walkable _ _ _ _ _ Hw2), Hfiles.
Qed.

Lemma scan_same_files_witness :
  Plain.scan sampleClock week storeExample [imageA; imageB] world0
  = Plain.scan sampleClock week storeFlat [imageA; imageB] world0.
Proof.
  apply (scan_same_files sampleClock week storeExample storeFlat
           [imageA; imageB] world0); reflexivity.
Defined.

(** X9.  Every digest of every input image can be found in the index under
    its bare form, and what is found there is an input image that has a
    digest with that bare form. *)
Theorem digests_complete (allImages : list Image) (img : Image) (dgst : string) :
  img ∈ allImages -> dgst ∈ Digests img ->
  exists owner,
    Plain.digests allImages !! TrimPrefix dgst "sha256:" = Some owner /\
    owner ∈ allImages /\
    TrimPrefix dgst "sha256:" ∈ bareDigests owner.
Proof.
  intros Himg Hd.
  assert (Hin : img ∈ filter (fun i => TrimPrefix dgst "sha256:" ∈ bareDigests i)
                         allImages).
  { apply list_elem_of_filter. split; [|assumption].
    unfold bareDigests. apply list_elem_of_fmap. eauto. }
  destruct (last (filter (fun i => TrimPrefix dgst "sha256:" ∈ bareDigests i) allImages))
    as [owner|] eqn:Hlast.
  - exists owner. rewrite digests_lookup. split; [assumption|].
    apply digests_lookup_Some. now rewrite digests_lookup.
  - apply last_None in Hlast. rewrite Hlast in Hin. now apply elem_of_nil in Hin.
Qed.

Lemma digests_complete_witness :
  exists owner,
    Plain.digests [imageA; imageC; imageB] !! TrimPrefix "sha256:d1" "sha256:" = Some owner /\
    owner ∈ [imageA; imageC; imageB] /\
    TrimPrefix "sha256:d1" "sha256:" ∈ bareDigests owner.
Proof.
  apply (digests_complete [imageA; imageC; imageB] imageA "sha256:d1").
  - vm_compute. apply list_elem_of_here.
  - vm_compute. apply list_elem_of_here.
Defined.

(** ** The second variant's [scan] *)

Section LoggedScan.
Variable clock : nat -> Time.
Variable maxAge : Duration.
Variable ctrFs : FS.
Variable allImages : list Image.
Variable w : World.

Local Abbreviation index := (Logged.digests allImages).
Local Abbreviation visit := (visitLogged clock maxAge index).
Local Abbreviation walked := (foldl visit (mkScanState [] [] w) (fsFiles ctrFs)).

Lemma Logged_walkFn_file_any p n info st :
  Logged.walkFn clock maxAge index p (Some (File n info)) None st
  = (visit st (n, info), None).
Proof.
  unfold visitLogged, Logged.walkFn, time_Since, time_Now; simpl.
  destruct (index !! n); [|reflexivity].
  destruct info; [|reflexivity].
  now destruct (maxAge <? _).
Qed.

Lemma Logged_scan_walkable :
  walkable ctrFs = true ->
  Logged.scan clock maxAge ctrFs allImages w
  = ((nonCompliant walked, failedImages walked),
     log_Info "images"
       [("nonCompliant", LImages (nonCompliant walked));
        ("failed", LImages (failedImages walked))] (world walked)).
Proof.
  intros Hw. unfold Logged.scan.
  now rewrite (WalkDir_walkable _ visit) by auto using Logged_walkFn_file_any.
Qed.

Lemma Logged_scan_not_walkable :
  walkable ctrFs = false ->
  (Logged.scan clock maxAge ctrFs allImages w).1 = ([], allImages).
Proof.
  intros Hw. unfold Logged.scan.
  destruct (WalkDir_not_walkable (Logged.walkFn clock maxAge index) visit
              (fun _ _ _ _ => eq_refl) (fun _ _ _ _ _ => eq_refl)
              Logged_walkFn_file_any ctrFs "." (mkScanState [] [] w) Hw)
    as (st & op & pth & errno & ->).
  reflexivity.
Qed.
End LoggedScan.

(** The second variant classifies a file with the second of the two clock
    readings it makes for it. *)
Lemma walk_second_reading clock maxAge (index : gmap string Image) (t0 : nat) fs :
  forall st1 st2,
    nonCompliant st1 = nonCompliant st2 ->
    failedImages st1 = failedImages st2 ->
    ticks (world st2) = (t0 + 2 * ticks (world st1))%nat ->
    nonCompliant (foldl (visitPlain (fun k => clock (t0 + 2 * k + 1)%nat) maxAge index) st1 fs)
      = nonCompliant (foldl (visitLogged clock maxAge index) st2 fs) /\
    failedImages (foldl (visitPlain (fun k => clock (t0 + 2 * k + 1)%nat) maxAge index) st1 fs)
      = failedImages (foldl (visitLogged clock maxAge index) st2 fs).
Proof.
  induction fs as [|[n info] fs IH]; intros st1 st2 Hn Hf Ht; cbn [foldl]; [auto|].
  apply IH; rewrite visitPlain_eq, visitLogged_eq;
    destruct (index !! n) as [img|]; try assumption;
    destruct info as [i|]; simpl; try assumption;
    try (rewrite Ht;
         replace (S (t0 + 2 * ticks (world st1))) with (t0 + 2 * ticks (world st1) + 1)%nat
           by lia;
         destruct (maxAge <? _); simpl; congruence).
  - congruence.
  - rewrite Ht.
    replace (S (t0 + 2 * ticks (world st1))) with (t0 + 2 * ticks (world st1) + 1)%nat
      by lia.
    destruct (maxAge <? _); simpl; lia.
Qed.

Lemma Logged_walk_effects clock maxAge (index : gmap string Image) fs : forall st,
  ticks (world (foldl (visitLogged clock maxAge index) st fs))
    = (ticks (world st) + 2 * length (filter (inspected index) fs))%nat /\
  length (logs (world (foldl (visitLogged clock maxAge index) st fs)))
    = (length (logs (world st)) + length (filter (inspected index) fs))%nat.
Proof.
  induction fs as [|[n info] fs IH]; intros st; cbn [foldl].
  - simpl. split; lia.
  - destruct (IH (visitLogged clock maxAge index st (n, info))) as [-> ->].
    rewrite filter_cons, visitLogged_eq.
    destruct (decide (inspected index (n, info))) as [[[img Hm] [i Hi]] | Hnot];
      simpl in *.
    + subst info. rewrite Hm.
      destruct (maxAge <? _); simpl; rewrite length_app; simpl; split; lia.
    + destruct (index !! n) as [img|] eqn:Hm; [|split; lia].
      destruct info as [i|]; [|split; simpl; lia].
      exfalso. apply Hnot. split; eexists; [exact Hm | reflexivity].
Qed.

(** X10.  For any clock, moving or not, the second variant returns what
    the first variant returns when the first is given, as its reading
    number [k], the second variant's reading number [2k+1] (counted from
    the readings already made): the second variant reads the clock twice
    for each file it inspects and decides with the second reading. *)
Theorem Logged_scan_second_reading (clock : nat -> Time) (maxAge : Duration)
    (ctrFs : FS) (allImages : list Image) (w : World) (l : list LogEntry) :
  (Logged.scan clock maxAge ctrFs allImages w).1
  = (Plain.scan (fun k => clock (ticks w + 2 * k + 1)%nat) maxAge ctrFs allImages
                (mkWorld 0 l)).1.
Proof.
  destruct (walkable ctrFs) eqn:Hw.
  - rewrite (scan_walkable _ _ _ _ _ Hw), (Logged_scan_walkable _ _ _ _ _ Hw).
    cbn [fst snd].
    destruct (walk_second_reading clock maxAge (Plain.digests allImages) (ticks w)
                (fsFiles ctrFs) (mkScanState [] [] (mkWorld 0 l)) (mkScanState [] [] w)
                eq_refl eq_refl) as [Hn Hf]; [simpl; lia|].
    change (Logged.digests allImages) with (Plain.digests allImages).
    now rewrite Hn, Hf.
  - now rewrite (scan_not_walkable _ _ _ _ _ Hw), (Logged_scan_not_walkable _ _ _ _ _ Hw).
Qed.

(** X11.  When the traversal succeeds the second variant's [scan] reads the
    clock twice and writes one log record for every file that the index
    knows and whose metadata can be read, and it ends the log with one
    record that carries the two lists it returns. *)
Theorem Logged_scan_effects (clock : nat -> Time) (maxAge : Duration)
    (ctrFs : FS) (allImages : list Image) (w : World) :
  walkable ctrFs = true ->
  let res := Logged.scan clock maxAge ctrFs allImages w in
  let n := length (filter (inspected (Logged.digests allImages)) (fsFiles ctrFs)) in
  ticks res.2 = (ticks w + 2 * n)%nat /\
  length (logs res.2) = (length (logs w) + n + 1)%nat /\
  last (logs res.2)
  = Some (LogInfo "images" [("nonCompliant", LImages res.1.1);
                            ("failed", LImages res.1.2)]).
Proof.
  intros Hw res n. subst res n. rewrite (Logged_scan_walkable _ _ _ _ _ Hw). simpl.
  destruct (Logged_walk_effects clock maxAge (Logged.digests allImages)
              (fsFiles ctrFs) (mkScanState [] [] w)) as [Ht Hl].
  rewrite length_app, last_snoc. simpl in *. rewrite Ht, Hl. repeat split; lia.
Qed.

Lemma Logged_scan_effects_witness :
  let res := Logged.scan sampleClock week storeExample [imageA; imageB] world0 in
  let n := length (filter (inspected (Logged.digests [imageA; imageB]))
                          (fsFiles storeExample)) in
  ticks res.2 = (ticks world0 + 2 * n)%nat /\
  length (logs res.2) = (length (logs world0) + n + 1)%nat /\
  last (logs res.2)
  = Some (LogInfo "images" [("nonCompliant", LImages res.1.1);
                            ("failed", LImages res.1.2)]).
Proof.
  apply (Logged_scan_effects sampleClock week storeExample [imageA; imageB] world0).
  reflexivity.
Defined.

(** ** What [time.ParseDuration] hands to [main] *)




Lemma ParseDuration_error_zero s d e : ParseDuration s = (d, Some e) -> d = 0.
Proof.
  unfold ParseDuration, ParseDur.ParseDuration.
  match goal with
  | |- context [let '(_, _) := ?x in _] => destruct x as [neg s0]
  end.
  repeat (case_match; try discriminate); congruence.
Qed.


(** ** Further properties of [loadConfig] and [main] *)

(** X12.  The first variant's [loadConfig] succeeds exactly when the file
    can be read and the scanner block (the empty document when the outer
    configuration has none) decodes: an error of the first
    [yaml.Unmarshal] is logged and never returned. *)
Theorem loadConfig_success_iff (ReadFile : string -> string + error)
    (unmarshalEraserConfig : string -> option string * option error)
    (unmarshalConfig : string -> Config -> Config * option error)
    (filename : string) (w : World) :
  (Plain.loadConfig ReadFile unmarshalEraserConfig unmarshalConfig filename w).1.2 = None
  <-> exists b,
        ReadFile filename = inl b /\
        (unmarshalConfig (default EmptyString (unmarshalEraserConfig b).1)
                         (mkConfig "7d")).2 = None.
Proof.
  unfold Plain.loadConfig.
  destruct (ReadFile filename) as [b | e]; simpl.
  - destruct (unmarshalEraserConfig b) as [y err] eqn:Hue. simpl.
    assert (Hbytes : match y with Some s => s | None => EmptyString end
                     = default EmptyString y) by now destruct y.
    rewrite Hbytes.
    destruct (unmarshalConfig _ _) as [cfg [e|]] eqn:Hcfg; simpl.
    + split; [discriminate | intros (b' & [= <-] & H)].
      rewrite Hue in H. simpl in H. rewrite Hcfg in H. discriminate.
    + split; [intros _; exists b | reflexivity].
      rewrite Hue. simpl. now rewrite Hcfg.
  - split; [discriminate | intros (b & [=] & _)].
Qed.


(** X14.  In the first variant every configured [MaxAge] that is not empty
    and that [time.ParseDuration] rejects sets [maxAge] to zero, whatever
    value it had. *)
Theorem applyMaxAge_parse_failure (c : Config) (maxAge : Duration) (w : World) :
  MaxAge c <> EmptyString ->
  (ParseDuration (MaxAge c)).2 <> None ->
  (Plain.applyMaxAge c maxAge w).1 = 0.
Proof.
  intros Hne Herr. unfold Plain.applyMaxAge.
  destruct (String.eqb_spec (MaxAge c) EmptyString) as [Heq | _]; [contradiction|].
  simpl. destruct (ParseDuration (MaxAge c)) as [d [e|]] eqn:Hp; [|contradiction].
  simpl. eapply ParseDuration_error_zero; eauto.
Qed.

Lemma applyMaxAge_parse_failure_witness :
  (Plain.applyMaxAge (mkConfig "1 week") initialMaxAge world0).1 = 0.
Proof.
  apply (applyMaxAge_parse_failure (mkConfig "1 week") initialMaxAge world0).
  - discriminate.
  - vm_compute. discriminate.
Defined.

(** X15.  The second variant starts the scan only with a threshold it can
    stand behind: when its configuration stage returns a [maxAge], then
    [loadConfig] returned without error and [maxAge] is either the initial
    168 hours (the configured string is empty) or the error-free result of
    parsing the configured string. *)
Theorem Logged_main_maxAge_returned (ReadFile : string -> string + error)
    (unmarshalEraserConfig : string -> option string * option error)
    (unmarshalConfig : string -> Config -> Config * option error)
    (logger_Configure : option error) (config : string) (w : World)
    (maxAge : Duration) :
  (Logged.main_maxAge ReadFile unmarshalEraserConfig unmarshalConfig
                      logger_Configure config w).1 = Returned maxAge ->
  logger_Configure = None /\
  exists c,
    (Logged.loadConfig ReadFile unmarshalEraserConfig unmarshalConfig
       (if String.eqb config EmptyString then defaultConfigPath else config) w).1
    = Returned (c, None) /\
    ((MaxAge c = EmptyString /\ maxAge = initialMaxAge) \/
     ParseDuration (MaxAge c) = (maxAge, None)).
Proof.
  unfold Logged.main_maxAge.
  destruct logger_Configure as [e|]; [discriminate|].
  destruct (Logged.loadConfig _ _ _ _ _) as [[[c [e|]] | code | e] w1];
    simpl; try discriminate.
  destruct (String.eqb_spec (MaxAge c) EmptyString) as [Heq | Hne]; simpl.
  - intros [= <-]. split; [reflexivity|]. exists c. auto.
  - destruct (ParseDuration (MaxAge c)) as [d [e|]] eqn:Hp; simpl; [discriminate|].
    intros [= <-]. split; [reflexivity|]. exists c. auto.
Qed.

Lemma Logged_main_maxAge_returned_witness :
  exists c,
    (Logged.loadConfig readOK outerWithBlock blockOneDay defaultConfigPath world0).1
    = Returned (c, None) /\
    ((MaxAge c = EmptyString /\ 24 * Hour = initialMaxAge) \/
     ParseDuration (MaxAge c) = (24 * Hour, None)).
Proof.
  apply (Logged_main_maxAge_returned readOK outerWithBlock blockOneDay
           None EmptyString world0 (24 * Hour)).
  reflexivity.
Defined.

(** X16.  A run of the first variant always asks the provider for the
    images and always returns from [main] (exit status 0), whether or not
    configuration, receiving, sending or finishing failed. *)
Theorem Plain_main_always_returns (clock : nat -> Time) (ctrFs : FS)
    (ReadFile : string -> string + error)
    (unmarshalEraserConfig : string -> option string * option error)
    (unmarshalConfig : string -> Config -> Config * option error)
    (ReceiveImages : list Image + error)
    (SendImages : list Image -> list Image -> option error)
    (Finish : option error) (config : string) (w : World) :
  let run := Plain.main clock ctrFs ReadFile unmarshalEraserConfig unmarshalConfig
                        ReceiveImages SendImages Finish config w in
  ending run = Returned tt /\ head (calls run) = Some CallReceiveImages.
Proof.
  intros run. subst run. unfold Plain.main.
  destruct (Plain.main_maxAge _ _ _ _ _) as [maxAge w1].
  destruct ReceiveImages as [imgs | e]; [|now split].
  destruct (Plain.scan _ _ _ _ _) as [[nc failed] w2].
  destruct (SendImages nc failed); [now split|].
  destruct Finish; now split.
Qed.

Lemma main_maxAge_unreadable ReadFile unmarshalEraserConfig unmarshalConfig
    config w e :
  ReadFile (if String.eqb config EmptyString then defaultConfigPath else config)
    = inr e ->
  Plain.main_maxAge ReadFile unmarshalEraserConfig unmarshalConfig config w
  = (0, (Plain.applyMaxAge (mkConfig "7d") initialMaxAge
           (log_Error e "unable to read configuration file"
              (log_Error e "unable to read eraser config" w))).2).
Proof.
  intros Hread. unfold Plain.main_maxAge, Plain.loadConfig. rewrite Hread.
  reflexivity.
Qed.

(** X17.  When the configuration file cannot be read, a run of the first
    variant still receives the images and sends a scan result, and that
    result is the one [scan] computes with a threshold of zero. *)
Theorem Plain_main_unreadable_config (clock : nat -> Time) (ctrFs : FS)
    (ReadFile : string -> string + error)
    (unmarshalEraserConfig : string -> option string * option error)
    (unmarshalConfig : string -> Config -> Config * option error)
    (ReceiveImages : list Image + error)
    (SendImages : list Image -> list Image -> option error)
    (Finish : option error) (config : string) (w : World)
    (e : error) (allImages : list Image) :
  ReadFile (if String.eqb config EmptyString then defaultConfigPath else config)
    = inr e ->
  ReceiveImages = inl allImages ->
  let run := Plain.main clock ctrFs ReadFile unmarshalEraserConfig unmarshalConfig
                        ReceiveImages SendImages Finish config w in
  let w1 := (Plain.main_maxAge ReadFile unmarshalEraserConfig unmarshalConfig
                               config w).2 in
  let res := (Plain.scan clock 0 ctrFs allImages w1).1 in
  CallSendImages res.1 res.2 ∈ calls run.
Proof.
  intros Hread -> run w1 res. subst run w1 res.
  unfold Plain.main.
  rewrite (main_maxAge_unreadable _ _ _ _ _ _ Hread). cbn [fst snd].
  destruct (Plain.scan _ _ _ _ _) as [[nc failed] w2]. cbn [fst snd].
  destruct (SendImages nc failed); [apply list_elem_of_further, list_elem_of_here|].
  destruct Finish; apply list_elem_of_further, list_elem_of_here.
Qed.

Lemma Plain_main_unreadable_config_witness :
  let run := Plain.main sampleClock storeExample readFails outerWithBlock blockOneDay
                        receiveAB sendOK None EmptyString world0 in
  let w1 := (Plain.main_maxAge readFails outerWithBlock blockOneDay EmptyString world0).2 in
  let res := (Plain.scan sampleClock 0 storeExample [imageA; imageB] w1).1 in
  CallSendImages res.1 res.2 ∈ calls run.
Proof.
  apply (Plain_main_unreadable_config sampleClock storeExample readFails outerWithBlock
           blockOneDay receiveAB sendOK None EmptyString world0
           (PathError "open" defaultConfigPath "no such file or directory")
           [imageA; imageB]); reflexivity.
Defined.

(** X18.  A run of the second variant ends with exit status 0 exactly when
    every step succeeded: the configuration stage returned a [maxAge], the
    images were received, the result of [scan] was sent and [Finish]
    reported no error. *)
Theorem Logged_main_success_iff (clock : nat -> Time) (ctrFs : FS)
    (ReadFile : string -> string + error)
    (unmarshalEraserConfig : string -> option string * option error)
    (unmarshalConfig : string -> Config -> Config * option error)
    (logger_Configure : option error)
    (ReceiveImages : list Image + error)
    (SendImages : list Image -> list Image -> option error)
    (Finish : option error) (config : string) (w : World) :
  ending (Logged.main clock ctrFs ReadFile unmarshalEraserConfig unmarshalConfig
            logger_Configure ReceiveImages SendImages Finish config w) = Returned tt
  <-> exists maxAge w1 allImages,
        Logged.main_maxAge ReadFile unmarshalEraserConfig unmarshalConfig
                           logger_Configure config w = (Returned maxAge, w1) /\
        ReceiveImages = inl allImages /\
        SendImages (Logged.scan clock maxAge ctrFs allImages w1).1.1
                   (Logged.scan clock maxAge ctrFs allImages w1).1.2 = None /\
        Finish = None.
Proof.
  unfold Logged.main.
  destruct (Logged.main_maxAge _ _ _ _ _ _) as [[maxAge | code | e] w1]; simpl.
  - destruct ReceiveImages as [imgs | e]; simpl.
    + destruct (Logged.scan _ _ _ _ _) as [[nc failed] w2] eqn:Hscan. simpl.
      destruct (SendImages nc failed) eqn:Hsend; simpl.
      * split; [discriminate | intros (m & w' & imgs' & [= <- <-] & [= <-] & Hs & _)].
        rewrite Hscan in Hs. simpl in Hs. congruence.
      * destruct Finish as [e|] eqn:Hfin; simpl.
        -- split; [discriminate | intros (_ & _ & _ & _ & _ & _ & [=])].
        -- split; [intros _ | reflexivity].
           exists maxAge, w1, imgs. rewrite Hscan. auto.
    + split; [discriminate | intros (_ & _ & _ & _ & [=] & _)].
  - split; [discriminate | intros (_ & _ & _ & [=] & _)].
  - split; [discriminate | intros (_ & _ & _ & [=] & _)].
Qed.

(** X19.  When the configuration stage of the second variant does not
    return a [maxAge] (the logger cannot be set up, the configuration
    cannot be loaded, the threshold does not parse), the run makes no
    provider call at all and ends the way that stage ended. *)
Theorem Logged_main_config_failure (clock : nat -> Time) (ctrFs : FS)
    (ReadFile : string -> string + error)
    (unmarshalEraserConfig : string -> option string * option error)
    (unmarshalConfig : string -> Config -> Config * option error)
    (logger_Configure : option error)
    (ReceiveImages : list Image + error)
    (SendImages : list Image -> list Image -> option error)
    (Finish : option error) (config : string) (w : World) :
  (forall maxAge,
     (Logged.main_maxAge ReadFile unmarshalEraserConfig unmarshalConfig
                         logger_Configure config w).1 <> Returned maxAge) ->
  let run := Logged.main clock ctrFs ReadFile unmarshalEraserConfig unmarshalConfig
                         logger_Configure ReceiveImages SendImages Finish config w in
  calls run = [] /\
  (ending run = Exited 1 \/ ending run = Panicked NilDereference).
Proof.
  intros Hstage run. subst run. unfold Logged.main.
  destruct (Logged.main_maxAge _ _ _ _ _ _) as [[maxAge | code | e] w1] eqn:Hm;
    simpl in *.
  - now destruct (Hstage maxAge).
  - split; [reflexivity|]. left.
    unfold Logged.main_maxAge in Hm.
    destruct logger_Configure; [now injection Hm as <- _|].
    destruct (Logged.loadConfig _ _ _ _ _) as [[[c [e|]] | code' | e] w2] eqn:Hl;
      try (now injection Hm as <- _); try discriminate.
    + destruct (negb _); [|discriminate].
      destruct (ParseDuration _) as [d [e|]]; [now injection Hm as <- _ | discriminate].
    + unfold Logged.loadConfig in Hl.
      destruct (ReadFile _); [|discriminate].
      destruct (unmarshalEraserConfig _) as [[y|] err]; [|discriminate].
      destruct (unmarshalConfig _ _) as [cfg [e|]]; discriminate.
  - split; [reflexivity|]. right.
    unfold Logged.main_maxAge in Hm.
    destruct logger_Configure; [discriminate|].
    destruct (Logged.loadConfig _ _ _ _ _) as [[[c [e0|]] | code' | e0] w2] eqn:Hl;
      try discriminate.
    + destruct (negb _); [|discriminate].
      destruct (ParseDuration _) as [d [e1|]]; discriminate.
    + injection Hm as <- _. unfold Logged.loadConfig in Hl.
      destruct (ReadFile _); [|discriminate].
      destruct (unmarshalEraserConfig _) as [[y|] err]; [|now injection Hl as <- _].
      destruct (unmarshalConfig _ _) as [cfg [e|]]; discriminate.
Qed.

Lemma Logged_main_config_failure_witness :
  let run := Logged.main sampleClock storeExample readFails outerWithBlock blockOneDay
                         None receiveAB sendOK None EmptyString world0 in
  calls run = [] /\
  (ending run = Exited 1 \/ ending run = Panicked NilDereference).
Proof.
  apply (Logged_main_config_failure sampleClock storeExample readFails outerWithBlock
           blockOneDay None receiveAB sendOK None EmptyString world0).
  intros maxAge. vm_compute. discriminate.
Defined.

(** X20.  In the second variant a configuration file that can be read but
    carries no scanner block makes the run panic on a nil pointer: the
    pointer is dereferenced for a log line before it is tested, so the
    fallback to an empty scanner block is never reached and no provider
    call is made. *)
Theorem Logged_main_nil_block_panics (clock : nat -> Time) (ctrFs : FS)
    (ReadFile : string -> string + error)
    (unmarshalEraserConfig : string -> option string * option error)
    (unmarshalConfig : string -> Config -> Config * option error)
    (ReceiveImages : list Image + error)
    (SendImages : list Image -> list Image -> option error)
    (Finish : option error) (config b : string) (w : World) :
  ReadFile (if String.eqb config EmptyString then defaultConfigPath else config)
    = inl b ->
  (unmarshalEraserConfig b).1 = None ->
  let run := Logged.main clock ctrFs ReadFile unmarshalEraserConfig unmarshalConfig
                         None ReceiveImages SendImages Finish config w in
  ending run = Panicked NilDereference /\ calls run = [].
Proof.
  intros Hread Hnil run. subst run.
  unfold Logged.main, Logged.main_maxAge, Logged.loadConfig.
  rewrite Hread. destruct (unmarshalEraserConfig b) as [y err]. simpl in Hnil.
  subst y. now split.
Qed.

Lemma Logged_main_nil_block_panics_witness :
  let run := Logged.main sampleClock storeExample readOK outerWithoutBlock blockOneDay
                         None receiveAB sendOK None EmptyString world0 in
  ending run = Panicked NilDereference /\ calls run = [].
Proof.
  apply (Logged_main_nil_block_panics sampleClock storeExample readOK
           outerWithoutBlock blockOneDay receiveAB sendOK None
           EmptyString "components: {}" world0); reflexivity.
Defined.
